(** * qkay: ordering, shuffling and anonymising quality-control reports

    A shallow embedding of [qkay/index.py] and the properties of its
    functions [define_order], [list_individual_reports], [shuffle_reports],
    [anonymize_reports] and [repeat_reports].

    Conventions of the embedding.
    - A Python [str] is a [string]; a character is a code point below 256.
    - A Python [int] is a [Z].
    - A raised exception is the left injection of a sum ([exn + A]).
    - Python lists are mutable objects: they live in a store indexed by
      references, and the functions that receive a list receive its
      reference. *)

From Stdlib Require Import ZArith Lia Bool List Ascii String Permutation.
From Stdlib Require Import Sorting.Sorted DecimalString DecimalZ.
From stdpp Require Import base option list gmap strings.
Import ListNotations.

Local Open Scope string_scope.
Local Open Scope list_scope.

#[local] Arguments String.append !_ _ / : simpl nomatch.

(** ** The fragment of Python's [re] that the module uses *)

Module Re.

(** What one pattern position accepts. *)
Inductive atom : Type :=
  | Lit (a : ascii)   (* an ordinary character *)
  | Dot               (* [.]  : anything but a newline *)
  | Word              (* [\w] *)
  | Digit.            (* [\d] *)

(** How often: once, [+] or [*] (both greedy). *)
Inductive quant : Type := One | Plus | Star.

(** A pattern is a sequence of quantified atoms; [t_cap] says that the
    position lies between the parentheses of group 1. *)
Record tok : Type := Tok { t_atom : atom; t_quant : quant; t_cap : bool }.

Definition between (lo hi n : nat) : bool := (lo <=? n)%nat && (n <=? hi)%nat.

(** [\d] on a str pattern is the Unicode decimal digits; below 256 these
    are 0-9 only. *)
Definition is_digit (a : ascii) : bool := between 48 57 (nat_of_ascii a).

(** [\w] on a str pattern is the underscore and every alphanumeric code
    point; below 256 these are the ASCII letters and digits, the
    letters and numerics of Latin-1 (a-ordinal, superscripts 2 3 1, micro,
    o-ordinal, the three vulgar fractions, and the accented letters apart
    from the multiplication and division signs). *)
Definition is_word (a : ascii) : bool :=
  let n := nat_of_ascii a in
  between 48 57 n || between 65 90 n || (n =? 95)%nat || between 97 122 n
  || (n =? 170)%nat || between 178 179 n || (n =? 181)%nat
  || between 185 186 n || between 188 190 n
  || between 192 214 n || between 216 246 n || between 248 255 n.

Definition accepts (x : atom) (a : ascii) : bool :=
  match x with
  | Lit c => Ascii.eqb a c
  | Dot => negb (nat_of_ascii a =? 10)%nat
  | Word => is_word a
  | Digit => is_digit a
  end.

(** *** Reading a pattern *)

Inductive lexeme : Type :=
  | LAtom (x : atom) | LOpen | LClose | LPlus | LStar.

Definition escape (c : ascii) : atom :=
  if Ascii.eqb c "w" then Word
  else if Ascii.eqb c "d" then Digit
  else Lit c.

Fixpoint lex (s : string) : list lexeme :=
  match s with
  | EmptyString => []
  | String c r =>
      if Ascii.eqb c "\" then
        match r with
        | String e r' => LAtom (escape e) :: lex r'
        | EmptyString => []
        end
      else if Ascii.eqb c "." then LAtom Dot :: lex r
      else if Ascii.eqb c "(" then LOpen :: lex r
      else if Ascii.eqb c ")" then LClose :: lex r
      else if Ascii.eqb c "+" then LPlus :: lex r
      else if Ascii.eqb c "*" then LStar :: lex r
      else LAtom (Lit c) :: lex r
  end.

Fixpoint toks (cap : bool) (l : list lexeme) : list tok :=
  match l with
  | [] => []
  | LOpen :: r => toks true r
  | LClose :: r => toks false r
  | LAtom x :: r =>
      match r with
      | LPlus :: r' => Tok x Plus cap :: toks cap r'
      | LStar :: r' => Tok x Star cap :: toks cap r'
      | _ => Tok x One cap :: toks cap r
      end
  | LPlus :: r => toks cap r
  | LStar :: r => toks cap r
  end.

(** [re.compile], on patterns made of literals, [.], [\w], [\d], [+] and
    [*] after one atom, and one group: all the patterns of [index.py]. *)
Definition compile (pattern : string) : list tok := toks false (lex pattern).

(** *** Matching *)

Definition keep (cap : bool) (a : ascii) (g : string) : string :=
  if cap then String a g else g.

(** A greedy repetition: take one more character when possible and hand over
    to the rest of the pattern [k]; when the rest fails, give the character
    back. *)
Fixpoint greedy (x : atom) (cap : bool) (k : string -> option string)
    (s : string) : option string :=
  match s with
  | String a s' =>
      if accepts x a then
        match greedy x cap k s' with
        | Some g => Some (keep cap a g)
        | None => k s
        end
      else k s
  | EmptyString => k s
  end.

(** Match pattern [p] at the start of [s]; the result is the text of
    group 1. *)
Fixpoint match_here (p : list tok) (s : string) : option string :=
  match p with
  | [] => Some EmptyString
  | t :: p' =>
      match t_quant t with
      | Star => greedy (t_atom t) (t_cap t) (match_here p') s
      | Plus =>
          match s with
          | String a s' =>
              if accepts (t_atom t) a
              then keep (t_cap t) a <$> greedy (t_atom t) (t_cap t) (match_here p') s'
              else None
          | EmptyString => None
          end
      | One =>
          match s with
          | String a s' =>
              if accepts (t_atom t) a
              then keep (t_cap t) a <$> match_here p' s'
              else None
          | EmptyString => None
          end
      end
  end.

(** Scan for the leftmost position where the pattern matches. *)
Fixpoint scan (p : list tok) (s : string) : option string :=
  match match_here p s with
  | Some g => Some g
  | None =>
      match s with
      | String _ s' => scan p s'
      | EmptyString => None
      end
  end.

(** The match object; the module reads nothing but [group(1)]. *)
Record rmatch : Type := Match { group1 : string }.

(** [re.search(pattern, s)]: [None] when there is no match. *)
Definition search (pattern s : string) : option rmatch :=
  Match <$> scan (compile pattern) s.

End Re.

(** ** Python values and exceptions *)

(** The two exceptions the module can raise: [AttributeError] when
    [.group] is asked of the [None] that a failed [re.search] returns, and
    [ValueError] from [int] and from [random.sample]. *)
Inductive exn : Type := AttributeError | ValueError.

Definition result (A : Type) : Type := exn + A.

Definition rbind {A B} (r : result A) (f : A -> result B) : result B :=
  match r with
  | inl e => inl e
  | inr a => f a
  end.

Notation "x <-r c1 ;; c2" := (rbind c1 (fun x => c2))
  (at level 100, c1 at next level, right associativity).

(** Evaluate [f] on the elements from left to right; the first exception
    ends the evaluation. *)
Fixpoint rmap {A B} (f : A -> result B) (l : list A) : result (list B) :=
  match l with
  | [] => inr []
  | a :: l' => b <-r f a ;; bs <-r rmap f l' ;; inr (b :: bs)
  end.

Definition digit_val (a : ascii) : Z := Z.of_nat (nat_of_ascii a - 48).

(** The digits of an integer literal: decimal digits, where a single
    underscore may stand between two digits. *)
Fixpoint int_digits (acc : Z) (after_digit : bool) (s : string) : option Z :=
  match s with
  | EmptyString => if after_digit then Some acc else None
  | String a r =>
      if Re.is_digit a then int_digits (10 * acc + digit_val a) true r
      else if Ascii.eqb a "_" then
        if after_digit then int_digits acc false r else None
      else None
  end.

(** [int(s)] for a text [s] without sign or blanks (it is applied to
    captures of [\w+] and [\d+] only, which have neither).  The interpreter's
    limit on the number of digits, some thousands, is beyond any file name and
    is left out. *)
Definition int_ (s : string) : result Z :=
  match int_digits 0 false s with
  | Some z => inr z
  | None => inl ValueError
  end.

(** [str(z)] for an [int]. *)
Definition str (z : Z) : string := NilZero.string_of_int (Z.to_int z).

(** [len(l)] *)
Definition len {A} (l : list A) : Z := Z.of_nat (length l).

(** [sub in s] for two strings. *)
Fixpoint str_in (sub s : string) : bool :=
  if String.prefix sub s then true
  else match s with
       | String _ s' => str_in sub s'
       | EmptyString => false
       end.

(** [s.replace(old, new)] for a non-empty [old]: the occurrences of [old]
    are replaced from left to right, and [skip] counts the characters of
    the occurrence being replaced that are still to be dropped. *)
Fixpoint replace_from (old new : string) (skip : nat) (s : string) : string :=
  match s with
  | EmptyString => EmptyString
  | String a s' =>
      match skip with
      | S k => replace_from old new k s'
      | O =>
          if String.prefix old s
          then new +:+ replace_from old new (String.length old - 1) s'
          else String a (replace_from old new 0 s')
      end
  end.

Definition replace (old new s : string) : string := replace_from old new 0 s.

(** [os.path.basename]: what follows the last slash. *)
Fixpoint basename (p : string) : string :=
  match p with
  | EmptyString => EmptyString
  | String a r =>
      if str_in "/" r then basename r
      else if Ascii.eqb a "/" then r else p
  end.

(** ** The sort key *)

(** The tuple [(subject_id, modality_priority, session_type_priority,
    session_number, run_id)]. *)
Definition key : Type := string * Z * Z * Z * Z.

Definition MODALITY_ORDER : list string :=
  ["_T1w"; "task-qct.*_bold"; "task-bht.*_bold"; "task_rest.*_bold"; "_T2w"].

(** The loop [for i, pattern in enumerate(...)] with its [break]; [i] is the
    index of the first pattern of [patterns]. *)
Fixpoint first_matching (i : Z) (patterns : list string) (file : string)
    (otherwise : Z) : Z :=
  match patterns with
  | [] => otherwise
  | pattern :: rest =>
      if Re.search pattern file is Some _ then i
      else first_matching (i + 1) rest file otherwise
  end.

Definition modality_priority_of (file : string) : Z :=
  first_matching 0 MODALITY_ORDER file (len MODALITY_ORDER).

Definition define_order (file : string) : result key :=
  match Re.search "sub-(\w+)_" file with
  | None => inl AttributeError
  | Some sub_match =>
      let subject_id := Re.group1 sub_match in
      let modality_priority := modality_priority_of file in
      run_id <-r match Re.search "run-(\w+)_" file with
                 | Some run_match => int_ (Re.group1 run_match)
                 | None => inr 0%Z
                 end ;;
      match Re.search "ses-excl(\d+)_" file with
      | Some excl_match =>
          n <-r int_ (Re.group1 excl_match) ;;
          inr (subject_id, modality_priority, 1%Z, n, run_id)
      | None =>
      match Re.search "ses-pilot(\d+)_" file with
      | Some pilot_match =>
          n <-r int_ (Re.group1 pilot_match) ;;
          inr (subject_id, modality_priority, 2%Z, n, run_id)
      | None =>
      match Re.search "ses-(\d+)_" file with
      | Some session_match =>
          n <-r int_ (Re.group1 session_match) ;;
          inr (subject_id, modality_priority, 3%Z, n, run_id)
      | None =>
          inr (subject_id, modality_priority, 4%Z, 0%Z, run_id)
      end end end
  end.

(** *** Comparing keys, as Python compares tuples *)

(** [a < b] on [str]: by code points, a proper prefix first. *)
Definition str_lt (a b : string) : bool := String.ltb a b.

(** [a < b] on tuples: decided at the first position where they differ. *)
Definition key_lt (a b : key) : bool :=
  let '(s1, m1, t1, n1, r1) := a in
  let '(s2, m2, t2, n2, r2) := b in
  if negb (String.eqb s1 s2) then str_lt s1 s2
  else if negb (m1 =? m2)%Z then (m1 <? m2)%Z
  else if negb (t1 =? t2)%Z then (t1 <? t2)%Z
  else if negb (n1 =? n2)%Z then (n1 <? n2)%Z
  else (r1 <? r2)%Z.

(** *** [list.sort(key=...)] *)

(** A stable sort: the keys are computed first, one per element from left
    to right, and the elements are then ordered by comparing keys with [<]
    alone; elements whose keys are equal keep their order. *)
Section Sort.
Context {K A : Type} (lt : K -> K -> bool).

Fixpoint insert_stable (x : K * A) (l : list (K * A)) : list (K * A) :=
  match l with
  | [] => [x]
  | y :: l' =>
      if lt (fst x) (fst y) then x :: y :: l'
      else y :: insert_stable x l'
  end.

Definition stable_sort (l : list (K * A)) : list (K * A) :=
  fold_left (fun sorted x => insert_stable x sorted) l [].
End Sort.

Definition sort_by_key {K} (lt : K -> K -> bool) (key_of : string -> result K)
    (l : list string) : result (list string) :=
  keys <-r rmap key_of l ;;
  inr (map snd (stable_sort lt (combine keys l))).

(** The last two statements of [list_individual_reports]. *)
Definition sort_reports (list_of_files : list string) : result (list string) :=
  sort_by_key key_lt define_order list_of_files.

(** [glob] stands for the file system: the paths that match a pattern. *)
Definition list_individual_reports (glob : string -> list string)
    (path_reports : string) (two_folders : bool) : result (list string) :=
  let list_of_files :=
    if two_folders then
      let list_of_file_condition1 :=
        map (fun filename => "/condition1/" +:+ basename filename)
            (glob (path_reports +:+ "condition1/" +:+ "sub-*.html")) in
      let list_of_file_condition2 :=
        map (fun filename => "/condition2/" +:+ basename filename)
            (glob (path_reports +:+ "condition2/" +:+ "sub-*.html")) in
      (list_of_file_condition1 ++ list_of_file_condition2)%list
    else
      map basename (glob (path_reports +:+ "/**/sub-*.html"))
  in
  sort_reports list_of_files.

(** ** The [random] module *)

(** The generator behind Python's [random] is the standard library's, not
    this module's.  It is taken as a parameter: a state, the state that
    [random.seed(a)] installs, and the positions that [random.shuffle] and
    [random.sample] choose.  Both read nothing of the list but its length:
    [shuffle_order g n] lists, for a list of [n] elements, which old
    position each new position receives, and [sample_picks g n k] lists the
    [k] positions drawn from a population of [n]. *)
Class Random : Type := {
  gen : Type;
  seed : Z -> gen;
  shuffle_order : gen -> nat -> list nat * gen;
  sample_picks : gen -> nat -> nat -> list nat * gen
}.

(** What the library documents: a shuffle is a rearrangement, and a sample
    of size [k] is made of [k] different positions of the population. *)
Class RandomLaws (R : Random) : Prop := {
  shuffle_order_perm : forall g n, (shuffle_order g n).1 ≡ₚ seq 0 n;
  sample_picks_length : forall g n k,
    k <= n -> length (sample_picks g n k).1 = k;
  sample_picks_below : forall g n k,
    k <= n -> Forall (fun i => i < n) (sample_picks g n k).1;
  sample_picks_distinct : forall g n k,
    k <= n -> NoDup (sample_picks g n k).1
}.

(** ** The store *)

(** A reference to a list object. *)
Definition ref : Type := nat.

Section Store.
Context {R : Random}.

(** What the functions can read and change: the list objects, the state of
    the process-wide generator, and the file [demo.txt] (absent, or the two
    lists printed into it). *)
Record world : Type := World {
  heap : gmap ref (list string);
  rng : gen;
  demo_txt : option (list string * list string)
}.

(** A computation changes the world and returns a value or raises; what it
    did before raising stays done. *)
Definition M (A : Type) : Type := world -> result A * world.

Definition ret {A} (a : A) : M A := fun w => (inr a, w).

Definition raise {A} (e : exn) : M A := fun w => (inl e, w).

Definition bind {A B} (m : M A) (f : A -> M B) : M B :=
  fun w =>
    match m w with
    | (inr a, w') => f a w'
    | (inl e, w') => (inl e, w')
    end.

(** The elements of the list object [l] (a reference held by a running
    program always points to an object; outside the store it reads as the
    empty list). *)
Definition elements (l : ref) : M (list string) :=
  fun w => (inr (heap w !!! l), w).

(** A new list object. *)
Definition new_list (items : list string) : M ref :=
  fun w =>
    let l := fresh (dom (heap w)) in
    (inr l, World (<[l := items]> (heap w)) (rng w) (demo_txt w)).

(** [copy.deepcopy(l)] for a list of strings. *)
Definition deepcopy (l : ref) : M ref :=
  bind (elements l) new_list.

(** [l.extend(items)] *)
Definition list_extend (l : ref) (items : list string) : M unit :=
  fun w =>
    (inr (), World (<[l := heap w !!! l ++ items]> (heap w)) (rng w) (demo_txt w)).

(** [random.seed(a)] *)
Definition random_seed (a : Z) : M unit :=
  fun w => (inr (), World (heap w) (seed a) (demo_txt w)).

(** [random.shuffle(x)]: in place. *)
Definition random_shuffle (x : ref) : M unit :=
  fun w =>
    let old := heap w !!! x in
    let (order, g) := shuffle_order (rng w) (length old) in
    (inr (), World (<[x := (fun i => old !!! i) <$> order]> (heap w)) g (demo_txt w)).

(** [random.sample(population, k)]: a new list, or [ValueError] when [k] is
    negative or larger than the population. *)
Definition random_sample (population : list string) (k : Z) :
    M (list string) :=
  fun w =>
    let n := length population in
    if ((0 <=? k)%Z && (k <=? len population)%Z)%bool then
      let (picks, g) := sample_picks (rng w) n (Z.to_nat k) in
      (inr ((fun i => population !!! i) <$> picks),
       World (heap w) g (demo_txt w))
    else (inl ValueError, w).

(** Opening [demo.txt] for writing, printing the two lists, closing. *)
Definition write_demo (a b : list string) : M unit :=
  fun w => (inr (), World (heap w) (rng w) (Some (a, b))).
End Store.

Notation "x <- c1 ;; c2" := (bind c1 (fun x => c2))
  (at level 100, c1 at next level, right associativity).
Notation "c1 ;; c2" := (bind c1 (fun _ => c2))
  (at level 100, right associativity).

(** ** Shuffling, anonymising, repeating *)

Section Reports.
Context {R : Random}.

Definition shuffle_reports (list_of_files : ref) (random_seed_ : Z) : M ref :=
  random_seed random_seed_ ;;
  shuffled_list <- deepcopy list_of_files ;;
  random_shuffle shuffled_list ;;
  ret shuffled_list.

(** [range(1, n + 1)] *)
Definition range1 (n : nat) : list Z := Z.of_nat <$> seq 1 n.

Definition anonymize_reports (shuffled_list : ref) (dataset_name : string) :
    M ref :=
  items <- elements shuffled_list ;;
  anonymized_report_list <-
    new_list ((fun i => "A-" +:+ dataset_name +:+ "_" +:+ str i)
                <$> range1 (length items)) ;;
  ret anonymized_report_list.

Definition repeat_reports (original_list : ref)
    (number_of_subjects_to_repeat : Z) (two_folders : bool) : M ref :=
  let day := 220830%Z in
  let time := 543417%Z in
  random_seed (day + time) ;;
  subset_rep <-
    (if two_folders then
       items <- elements original_list ;;
       let list_condition1 := filter (fun s => str_in "condition1" s = true) items in
       write_demo items list_condition1 ;;
       subset_rep_condition1 <-
         random_sample list_condition1 number_of_subjects_to_repeat ;;
       let subset_rep_condition2 :=
         (fun s => replace "condition1" "condition2" s)
           <$> subset_rep_condition1 in
       ret (subset_rep_condition1 ++ subset_rep_condition2)%list
     else
       items <- elements original_list ;;
       random_sample items number_of_subjects_to_repeat) ;;
  list_extend original_list subset_rep ;;
  ret original_list.
End Reports.

(** ** A generator to run the functions with *)

(** A linear congruential generator driving the loop of [random.shuffle]
    (exchange position [i] with a position drawn below [i + 1], for [i] from
    the last position down to 1); its sample is the head of a shuffle. *)
Module Lcg.

Definition next (g : N) : N := ((1103515245 * g + 12345) mod 2147483648)%N.

Definition randbelow (n : nat) (g : N) : nat * N :=
  let g' := next g in (N.to_nat (g' mod N.of_nat n), g').

Definition swap (i j : nat) (x : list nat) : list nat :=
  <[i := x !!! j]> (<[j := x !!! i]> x).

Fixpoint exchanges (i : nat) (g : N) (x : list nat) : list nat * N :=
  match i with
  | O => (x, g)
  | S i' =>
      let (j, g') := randbelow (S i) g in
      exchanges i' g' (swap i j x)
  end.

Definition shuffle_order (g : N) (n : nat) : list nat * N :=
  exchanges (n - 1) g (seq 0 n).

Definition sample_picks (g : N) (n k : nat) : list nat * N :=
  let (order, g') := shuffle_order g n in (take k order, g').

#[export] Instance random : Random :=
  Build_Random N Z.abs_N shuffle_order sample_picks.

End Lcg.

Definition world0 (lists : list (list string)) : @world Lcg.random :=
  @World Lcg.random (list_to_map (zip (seq 0 (length lists)) lists)) 0%N None.

(** ** What it means for a pattern to match *)

(** Every character of [r] is accepted by [x]. *)
Fixpoint all_accept (x : Re.atom) (r : string) : bool :=
  match r with
  | EmptyString => true
  | String a r' => Re.accepts x a && all_accept x r'
  end.

Definition captured (cap : bool) (r g : string) : string :=
  if cap then r +:+ g else g.

(** [Matches p s g]: pattern [p] matches at the start of [s], with [g] the
    text between the parentheses. *)
Inductive Matches : list Re.tok -> string -> string -> Prop :=
  | M_end s : Matches [] s EmptyString
  | M_one x cap p a s g :
      Re.accepts x a = true -> Matches p s g ->
      Matches (Re.Tok x Re.One cap :: p) (String a s) (Re.keep cap a g)
  | M_plus x cap p a r s g :
      Re.accepts x a = true -> all_accept x r = true -> Matches p s g ->
      Matches (Re.Tok x Re.Plus cap :: p) (String a (r +:+ s))
              (Re.keep cap a (captured cap r g))
  | M_star x cap p r s g :
      all_accept x r = true -> Matches p s g ->
      Matches (Re.Tok x Re.Star cap :: p) (r +:+ s) (captured cap r g).

(** The file name holds [tag], then a non-empty run [id] of characters that
    [x] accepts, then an underscore: a [sub-<id>_] segment for the tag
    [sub-] and the atom [\w]. *)
Definition segment (tag : string) (x : Re.atom) (file id : string) : Prop :=
  exists before after,
    file = before +:+ tag +:+ id +:+ "_" +:+ after /\
    id <> EmptyString /\ all_accept x id = true.

Definition has_segment (tag : string) (x : Re.atom) (file : string) : Prop :=
  exists id, segment tag x file id.

(** The shape shared by [sub-(\w+)_], [run-(\w+)_], [ses-excl(\d+)_],
    [ses-pilot(\d+)_] and [ses-(\d+)_]: the characters of a tag, a captured
    repetition, an underscore. *)
Fixpoint lits (tag : string) : list Re.tok :=
  match tag with
  | EmptyString => []
  | String a r => Re.Tok (Re.Lit a) Re.One false :: lits r
  end.

Definition tagged (tag : string) (x : Re.atom) : list Re.tok :=
  lits tag ++ [Re.Tok x Re.Plus true; Re.Tok (Re.Lit "_") Re.One false].

(** The number that a run of decimal digits writes. *)
Fixpoint decimal_from (acc : Z) (digits : string) : Z :=
  match digits with
  | EmptyString => acc
  | String a r => decimal_from (10 * acc + digit_val a) r
  end.

Definition decimal_value (digits : string) : Z := decimal_from 0 digits.

(** The session rule in the words of the specification: the first of
    [ses-excl(\d+)_], [ses-pilot(\d+)_], [ses-(\d+)_] that matches gives the
    type priority 1, 2 or 3 and the captured number; none gives priority 4 and
    number 0. *)
Definition session_rule (file : string) : Z * Z :=
  match Re.search "ses-excl(\d+)_" file with
  | Some m => (1, decimal_value (Re.group1 m))
  | None =>
      match Re.search "ses-pilot(\d+)_" file with
      | Some m => (2, decimal_value (Re.group1 m))
      | None =>
          match Re.search "ses-(\d+)_" file with
          | Some m => (3, decimal_value (Re.group1 m))
          | None => (4, 0)
          end
      end
  end%Z.

(** [define_order] returns a key whose session part is what the session rule
    says. *)
Definition classified (file : string) : Prop :=
  exists subject_id modality_priority run_id,
    define_order file =
    inr (subject_id, modality_priority,
         (session_rule file).1, (session_rule file).2, run_id).

(** The run id of the file name, when it has one, is text that [int]
    accepts. *)
Definition run_id_readable (file : string) : Prop :=
  forall m, Re.search "run-(\w+)_" file = Some m ->
            exists z, int_ (Re.group1 m) = inr z.

(** The subject id of a file name: what [define_order] takes from it, the
    first capture of [sub-(\w+)_]. *)
Definition subject_id_of (file : string) : option string :=
  Re.group1 <$> Re.search "sub-(\w+)_" file.

(** A valid file name is one for which [define_order] returns a key. *)
Definition valid (file : string) : Prop :=
  exists k, define_order file = inr k.

(** The list that [shuffle_reports] builds from the elements [files] under
    the seed [s], and the labels that [anonymize_reports] builds for [n]
    reports. *)
Definition shuffled `{R : Random} (s : Z) (files : list string) : list string :=
  (fun i => files !!! i) <$> (shuffle_order (seed s) (length files)).1.

Definition labels (dataset_name : string) (n : nat) : list string :=
  (fun i => "A-" +:+ dataset_name +:+ "_" +:+ str i) <$> range1 n.

(** The reports among which the repeats are drawn. *)
Definition pool (two_folders : bool) (files : list string) : list string :=
  if two_folders then filter (fun s => str_in "condition1" s = true) files
  else files.

(** [a <= b] on keys, read off Python's [<]: [b < a] is false. *)
Definition key_le (a b : key) : Prop := key_lt b a = false.

(** The comparison of the four numbers of a key, once the subjects agree. *)
Definition numbers_lt (a b : Z * Z * Z * Z) : bool :=
  let '(m1, t1, n1, r1) := a in
  let '(m2, t2, n2, r2) := b in
  if negb (m1 =? m2)%Z then (m1 <? m2)%Z
  else if negb (t1 =? t2)%Z then (t1 <? t2)%Z
  else if negb (n1 =? n2)%Z then (n1 <? n2)%Z
  else (r1 <? r2)%Z.

(** No character of [s] is [c]. *)
Fixpoint without (c : ascii) (s : string) : bool :=
  match s with
  | EmptyString => true
  | String a r => negb (Ascii.eqb a c) && without c r
  end.

(** [s] is empty or starts with a character that [\w] does not accept. *)
Definition ends_word (s : string) : bool :=
  match s with
  | EmptyString => true
  | String a _ => negb (Re.is_word a)
  end.

(** Two keys are level when neither is below the other. *)
Definition level {K} (lt : K -> K -> bool) (a b : K) : bool :=
  negb (lt a b) && negb (lt b a).

(** A listing of two folders, to run the functions on. *)
Definition reports_two_folders : list string :=
  ["/condition1/sub-01_T1w.html"; "/condition1/sub-02_T1w.html";
   "/condition1/sub-03_T1w.html"; "/condition2/sub-01_T1w.html";
   "/condition2/sub-02_T1w.html"; "/condition2/sub-03_T1w.html"].

(** The key of a valid file name (the key of no file name otherwise), and a
    file name with its key before it, as the sort holds it. *)
Definition key_of (file : string) : key :=
  match define_order file with
  | inr k => k
  | inl _ => (EmptyString, 0, 0, 0, 0)%Z
  end.

Definition decorate (file : string) : key * string := (key_of file, file).

#[export] Instance exn_eq_dec : EqDecision exn.
Proof. solve_decision. Defined.

(** The file name [file] has the key [k]. *)
Definition has_key (k : key) (file : string) : bool :=
  bool_decide (define_order file = inr k).


(** The grouping of the sorted listing, in the words of the specification. *)

(** The text after the first occurrence of [tag], and the text before the
    first underscore. *)
Fixpoint after_first (tag s : string) : option string :=
  if String.prefix tag s
  then Some (String.substring (String.length tag)
               (String.length s - String.length tag) s)
  else match s with
       | String _ s' => after_first tag s'
       | EmptyString => None
       end.

Fixpoint until_underscore (s : string) : option string :=
  match s with
  | EmptyString => None
  | String a r =>
      if Ascii.eqb a "_" then Some EmptyString
      else String a <$> until_underscore r
  end.

(** The subject of a report: the [<id>] of its [sub-<id>_] segment, the text
    between the first [sub-] and the next underscore. *)
Definition label_of (file : string) : option string :=
  after_first "sub-" file ≫= until_underscore.

(** The fixed priority list of the specification, and the modality rank of a
    report: the index of the first pattern of the list that matches the name
    (regex search, not anchored), the length of the list when none matches. *)
Definition PRIORITY_LIST : list string :=
  ["_T1w"; "task-qct.*_bold"; "task-bht.*_bold"; "task_rest.*_bold"; "_T2w"].

Definition rank_in (patterns : list string) (file : string) : nat :=
  match list_find (fun p => is_Some (Re.search p file)) patterns with
  | Some (i, _) => i
  | None => length patterns
  end.

Definition spec_modality_rank (file : string) : nat :=
  rank_in PRIORITY_LIST file.

(** All reports sharing a subject appear contiguously: a report between two
    reports of one subject is of that subject. *)
Definition grouped_by_label (out : list string) : Prop :=
  forall i j k fi fj fk,
    i <= j -> j <= k ->
    out !! i = Some fi -> out !! j = Some fj -> out !! k = Some fk ->
    label_of fi = label_of fk -> label_of fj = label_of fi.

(** Within one subject the modalities appear in the order of the list. *)
Definition modalities_in_order (out : list string) : Prop :=
  forall i j fi fj,
    i <= j -> out !! i = Some fi -> out !! j = Some fj ->
    label_of fi = label_of fj ->
    spec_modality_rank fi <= spec_modality_rank fj.

(** [define_order] returns a key for the file name, and the subject id of
    the key is the [<id>] of the name. *)
Definition keyed_by_label (file : string) : Prop :=
  exists k, define_order file = inr k /\ label_of file = Some k.1.1.1.1.

(** * Properties *)

(** ** The matcher finds what the pattern describes *)

Lemma append_assoc (a b c : string) : (a +:+ b) +:+ c = a +:+ (b +:+ c).
Proof. induction a as [|x a IH]; simpl; [reflexivity | by rewrite IH]. Qed.

Lemma all_accept_app x r1 r2 :
  all_accept x (r1 +:+ r2) = all_accept x r1 && all_accept x r2.
Proof.
  induction r1 as [|a r1 IH]; simpl; [reflexivity|].
  by rewrite IH, andb_assoc.
Qed.

Lemma captured_keep cap a r g :
  Re.keep cap a (captured cap r g) = captured cap (String a r) g.
Proof. by destruct cap. Qed.

Lemma greedy_sound x cap k s g :
  Re.greedy x cap k s = Some g ->
  exists r s' g', s = r +:+ s' /\ all_accept x r = true /\
                  k s' = Some g' /\ g = captured cap r g'.
Proof.
  revert g; induction s as [|a s IH]; intros g; simpl.
  - intros Hk. exists EmptyString, EmptyString, g. by destruct cap.
  - assert (Hzero : k (String a s) = Some g ->
      exists r s' g', String a s = r +:+ s' /\ all_accept x r = true /\
                      k s' = Some g' /\ g = captured cap r g').
    { intros Hk. exists EmptyString, (String a s), g. by destruct cap. }
    destruct (Re.accepts x a) eqn:Ha; [|exact Hzero].
    destruct (Re.greedy x cap k s) as [g1|] eqn:Hg; [|exact Hzero].
    intros [= <-]. destruct (IH g1 eq_refl) as (r & s' & g' & -> & Hr & Hk & ->).
    exists (String a r), s', g'. simpl. rewrite Ha, Hr.
    repeat split; [done | by rewrite captured_keep].
Qed.

Lemma greedy_complete x cap k r s :
  all_accept x r = true -> is_Some (k s) ->
  is_Some (Re.greedy x cap k (r +:+ s)).
Proof.
  intros Hr Hk. induction r as [|a r IH]; simpl in *.
  - destruct s as [|b s]; simpl; [done|].
    destruct (Re.accepts x b); [|done].
    by destruct (Re.greedy x cap k s).
  - apply andb_true_iff in Hr as [Ha Hr]. rewrite Ha.
    destruct (IH Hr) as [g ->]. by eexists.
Qed.

Lemma match_here_sound p s g : Re.match_here p s = Some g -> Matches p s g.
Proof.
  revert s g; induction p as [|[x q cap] p IH]; intros s g; simpl.
  - intros [= <-]. constructor.
  - destruct q.
    + destruct s as [|a s]; [done|].
      destruct (Re.accepts x a) eqn:Ha; [|done].
      destruct (Re.match_here p s) as [g1|] eqn:Hm; [|done].
      intros [= <-]. constructor; auto.
    + destruct s as [|a s]; [done|].
      destruct (Re.accepts x a) eqn:Ha; [|done].
      destruct (Re.greedy x cap (Re.match_here p) s) as [g1|] eqn:Hg; [|done].
      intros [= <-].
      destruct (greedy_sound _ _ _ _ _ Hg) as (r & s' & g' & -> & Hr & Hk & ->).
      constructor; auto.
    + intros Hg.
      destruct (greedy_sound _ _ _ _ _ Hg) as (r & s' & g' & -> & Hr & Hk & ->).
      constructor; auto.
Qed.

Lemma match_here_complete p s g :
  Matches p s g -> is_Some (Re.match_here p s).
Proof.
  induction 1 as [s|x cap p a s g Ha _ IH|x cap p a r s g Ha Hr _ IH
                  |x cap p r s g Hr _ IH]; simpl.
  - by eexists.
  - rewrite Ha. destruct IH as [g1 ->]. by eexists.
  - rewrite Ha.
    destruct (greedy_complete x cap (Re.match_here p) r s Hr IH) as [g1 ->].
    by eexists.
  - by apply greedy_complete.
Qed.

Lemma scan_sound p s g :
  Re.scan p s = Some g ->
  exists before s', s = before +:+ s' /\ Matches p s' g.
Proof.
  induction s as [|a s IH]; simpl.
  - destruct (Re.match_here p EmptyString) as [g1|] eqn:Hm; [|done].
    intros [= <-]. exists EmptyString, EmptyString.
    split; [done | by apply match_here_sound].
  - destruct (Re.match_here p (String a s)) as [g1|] eqn:Hm.
    + intros [= <-]. exists EmptyString, (String a s).
      split; [done | by apply match_here_sound].
    + intros Hs. destruct (IH Hs) as (before & s' & -> & HM).
      by exists (String a before), s'.
Qed.

Lemma scan_complete p before s g :
  Matches p s g -> is_Some (Re.scan p (before +:+ s)).
Proof.
  intros HM. apply match_here_complete in HM.
  induction before as [|a before IH]; simpl.
  - destruct s; simpl; destruct HM as [g1 ->]; by eexists.
  - destruct (Re.match_here p (String a (before +:+ s))); [by eexists | done].
Qed.

Lemma append_nil_r (a : string) : a +:+ EmptyString = a.
Proof. induction a as [|x a IH]; simpl; [reflexivity | by rewrite IH]. Qed.

Lemma Matches_lits tag p s g :
  Matches (lits tag ++ p) s g <-> exists s', s = tag +:+ s' /\ Matches p s' g.
Proof.
  revert s; induction tag as [|a tag IH]; intros s; simpl.
  - split; [by exists s | by intros (s' & -> & H)].
  - split.
    + inversion 1 as [|x cap p0 b s0 g0 Hb HM| |]; subst.
      apply Ascii.eqb_eq in Hb as ->.
      apply IH in HM as (s' & -> & HM). by exists s'.
    + intros (s' & -> & HM).
      apply (M_one (Re.Lit a) false); [apply Ascii.eqb_refl|].
      apply IH. by exists s'.
Qed.

Lemma Matches_tagged tag x s g :
  Matches (tagged tag x) s g <->
  exists after, s = tag +:+ g +:+ "_" +:+ after /\
                g <> EmptyString /\ all_accept x g = true.
Proof.
  unfold tagged. rewrite Matches_lits. split.
  - intros (s' & -> & HM).
    inversion HM as [| |x0 cap p0 a r s0 g0 Ha Hr HM'|]; subst.
    inversion HM' as [|x1 cap1 p1 b s1 g1 Hb HM''| |]; subst.
    inversion HM''; subst. apply Ascii.eqb_eq in Hb as ->. simpl.
    rewrite append_nil_r. exists s1. simpl. rewrite Ha, Hr.
    by repeat split.
  - intros (after & -> & Hg & Hall). exists (g +:+ "_" +:+ after).
    split; [done|]. destruct g as [|a r]; [done|].
    simpl in Hall. apply andb_true_iff in Hall as [Ha Hr].
    simpl (String a r +:+ _).
    cut (Matches [Re.Tok x Re.Plus true; Re.Tok (Re.Lit "_") Re.One false]
           (String a (r +:+ "_" +:+ after))
           (Re.keep true a (captured true r (Re.keep false "_" EmptyString)))).
    { unfold Re.keep, captured. by rewrite append_nil_r. }
    apply M_plus; [done..|].
    apply (M_one (Re.Lit "_") false); [done | constructor].
Qed.

(** Scanning for a pattern of that shape succeeds exactly on the strings
    that hold such a segment, and group 1 is the [id] of one of them. *)
Lemma scan_tagged_Some tag x file g :
  Re.scan (tagged tag x) file = Some g -> segment tag x file g.
Proof.
  intros Hscan.
  apply scan_sound in Hscan as (before & s' & -> & HM).
  apply Matches_tagged in HM as (after & -> & Hg & Hall).
  by exists before, after.
Qed.

Lemma scan_tagged_None tag x file :
  Re.scan (tagged tag x) file = None <-> ~ has_segment tag x file.
Proof.
  split.
  - intros Hn (id & before & after & -> & Hg & Hall).
    destruct (scan_complete (tagged tag x) before
                (tag +:+ id +:+ "_" +:+ after) id) as [g Hsome].
    { apply Matches_tagged. by exists after. }
    by rewrite Hsome in Hn.
  - intros Hno. destruct (Re.scan (tagged tag x) file) as [g|] eqn:Hscan; [|done].
    exfalso. apply Hno. exists g. by apply scan_tagged_Some.
Qed.

Lemma search_tagged_Some pattern tag x file m :
  Re.compile pattern = tagged tag x ->
  Re.search pattern file = Some m -> segment tag x file (Re.group1 m).
Proof.
  unfold Re.search. intros -> Hs.
  destruct (Re.scan (tagged tag x) file) as [g|] eqn:Hscan; [|done].
  injection Hs as <-. by apply scan_tagged_Some.
Qed.

Lemma search_tagged_None pattern tag x file :
  Re.compile pattern = tagged tag x ->
  Re.search pattern file = None <-> ~ has_segment tag x file.
Proof.
  unfold Re.search. intros ->. rewrite <- scan_tagged_None.
  by destruct (Re.scan (tagged tag x) file).
Qed.

(** ** The sort key *)

Lemma int_digits_decimal g : forall acc after,
  all_accept Re.Digit g = true -> g <> EmptyString \/ after = true ->
  int_digits acc after g = Some (decimal_from acc g).
Proof.
  induction g as [|a g IH]; intros acc after Hall Hne; simpl in *.
  - destruct Hne as [?| ->]; done.
  - apply andb_true_iff in Hall as [Ha Hg]. rewrite Ha.
    apply IH; [done | by right].
Qed.

(** [int] reads every capture of [\d+]. *)
Lemma int_digits_capture g :
  g <> EmptyString -> all_accept Re.Digit g = true ->
  int_ g = inr (decimal_value g).
Proof.
  intros Hne Hall. unfold int_, decimal_value.
  rewrite (int_digits_decimal g); [done | done | by left].
Qed.

Lemma search_session_int pattern tag file m :
  Re.compile pattern = tagged tag Re.Digit ->
  Re.search pattern file = Some m ->
  int_ (Re.group1 m) = inr (decimal_value (Re.group1 m)).
Proof.
  intros Hc Hs.
  destruct (search_tagged_Some _ _ _ _ _ Hc Hs) as (? & ? & _ & Hne & Hall).
  by apply int_digits_capture.
Qed.

Lemma int_raises_ValueError s e : int_ s = inl e -> e = ValueError.
Proof. unfold int_. destruct (int_digits 0 false s); congruence. Qed.

(** [define_order] with its searches named. *)
Lemma define_order_found file m :
  Re.search "sub-(\w+)_" file = Some m ->
  define_order file =
  (run_id <-r match Re.search "run-(\w+)_" file with
              | Some run_match => int_ (Re.group1 run_match)
              | None => inr 0%Z
              end ;;
   inr (Re.group1 m, modality_priority_of file,
        (session_rule file).1, (session_rule file).2, run_id)).
Proof.
  intros Hsub. unfold define_order, session_rule. rewrite Hsub.
  destruct (match Re.search "run-(\w+)_" file with
            | Some run_match => int_ (Re.group1 run_match)
            | None => inr 0%Z
            end) as [e|run_id]; simpl; [done|].
  destruct (Re.search "ses-excl(\d+)_" file) as [m1|] eqn:H1.
  { by rewrite (search_session_int "ses-excl(\d+)_" "ses-excl" _ _ eq_refl H1). }
  destruct (Re.search "ses-pilot(\d+)_" file) as [m2|] eqn:H2.
  { by rewrite (search_session_int "ses-pilot(\d+)_" "ses-pilot" _ _ eq_refl H2). }
  destruct (Re.search "ses-(\d+)_" file) as [m3|] eqn:H3.
  { by rewrite (search_session_int "ses-(\d+)_" "ses-" _ _ eq_refl H3). }
  done.
Qed.

Lemma search_sub_segment file :
  is_Some (Re.search "sub-(\w+)_" file) <-> has_segment "sub-" Re.Word file.
Proof.
  split.
  - intros [m Hm]. exists (Re.group1 m).
    by apply (search_tagged_Some "sub-(\w+)_").
  - intros Hseg. destruct (Re.search "sub-(\w+)_" file) as [m|] eqn:Hs; [done|].
    by apply (search_tagged_None "sub-(\w+)_" "sub-" Re.Word file eq_refl) in Hs.
Qed.

Lemma run_id_raises_ValueError file e :
  match Re.search "run-(\w+)_" file with
  | Some run_match => int_ (Re.group1 run_match)
  | None => inr 0%Z
  end = inl e -> e = ValueError.
Proof.
  destruct (Re.search "run-(\w+)_" file); [apply int_raises_ValueError | done].
Qed.

(** C3 (as amended).  For every file name that holds a [sub-<id>_] segment and
    whose run id, if it has one, is text that [int] accepts, [define_order]
    returns a key, and the session part of the key follows the cascade: type
    priority 1 and the captured number when [ses-excl(\d+)_] matches,
    otherwise 2 and the number of [ses-pilot(\d+)_], otherwise 3 and the number
    of [ses-(\d+)_], otherwise 4 and 0. *)
Theorem define_order_session_cascade (file : string) :
  has_segment "sub-" Re.Word file -> run_id_readable file -> classified file.
Proof.
  intros Hseg Hrun. apply search_sub_segment in Hseg as [m Hm].
  unfold classified. rewrite (define_order_found file m Hm).
  destruct (Re.search "run-(\w+)_" file) as [run_match|] eqn:Hr.
  - destruct (Hrun run_match Hr) as [z ->]. simpl. by eexists _, _, _.
  - simpl. by eexists _, _, _.
Qed.

Lemma define_order_session_cascade_witness :
  classified "sub-01_ses-pilot03_task-qct_run-02_bold.html".
Proof.
  apply define_order_session_cascade.
  - exists "01", "", "ses-pilot03_task-qct_run-02_bold.html".
    split; [reflexivity | split; [discriminate | reflexivity]].
  - intros m Hm. vm_compute in Hm. injection Hm as <-.
    exists 2%Z. reflexivity.
Defined.

(** C3 as it was stated fails: a file name with a [sub-<id>_] segment and an
    exclusion session, whose run id is not a number, gets no key at all,
    because [int] raises before the session is looked at. *)
Lemma define_order_session_cascade_unreadable_run :
  has_segment "sub-" Re.Word "sub-01_run-x_ses-excl01_T1w.html" /\
  define_order "sub-01_run-x_ses-excl01_T1w.html" = inl ValueError /\
  ~ classified "sub-01_run-x_ses-excl01_T1w.html".
Proof.
  assert (Hd : define_order "sub-01_run-x_ses-excl01_T1w.html" = inl ValueError)
    by (vm_compute; reflexivity).
  split; [|split; [exact Hd|]].
  - exists "01", "", "run-x_ses-excl01_T1w.html".
    split; [reflexivity | split; [discriminate | reflexivity]].
  - intros (sid & mp & run & Hk). rewrite Hd in Hk. discriminate.
Qed.

(** C4.  [define_order] raises the error of the missing pattern (the
    [AttributeError] of asking [None] for its group) exactly on the file names
    that hold no [sub-<id>_] segment; raising, it returns no key. *)
Theorem define_order_malformed (file : string) :
  define_order file = inl AttributeError <->
  ~ has_segment "sub-" Re.Word file.
Proof.
  rewrite <- search_sub_segment. split.
  - intros Hd [m Hm]. rewrite (define_order_found file m Hm) in Hd.
    destruct (match Re.search "run-(\w+)_" file with
              | Some run_match => int_ (Re.group1 run_match)
              | None => inr 0%Z
              end) as [e|z] eqn:Hrun; simpl in Hd; [|done].
    apply run_id_raises_ValueError in Hrun. congruence.
  - intros Hno. unfold define_order.
    destruct (Re.search "sub-(\w+)_" file) as [m|]; [|done].
    exfalso. apply Hno. by eexists.
Qed.

(** The keys of some file names.  The capture of [\w+] is greedy and [\w]
    accepts the underscore, so the subject id runs to the last underscore of
    the run of word characters that follows [sub-]; and the pattern of the
    resting-state modality is spelled with an underscore. *)
Example define_order_numbered :
  define_order "sub-01_ses-02_task-bht_run-03_bold.html"
  = inr ("01", 2, 3, 2, 3)%Z.
Proof. vm_compute. reflexivity. Qed.

Example define_order_no_session :
  define_order "sub-07_T2w.html" = inr ("07", 4, 4, 0, 0)%Z.
Proof. vm_compute. reflexivity. Qed.

Example define_order_rest_hyphen :
  define_order "sub-01_task-rest_run-02_bold.html" = inr ("01", 5, 4, 0, 2)%Z.
Proof. vm_compute. reflexivity. Qed.

Example define_order_rest_underscore :
  define_order "sub-1_task_rest_bold.html" = inr ("1_task_rest", 3, 4, 0, 0)%Z.
Proof. vm_compute. reflexivity. Qed.

Example define_order_no_subject :
  define_order "T1w.html" = inl AttributeError.
Proof. vm_compute. reflexivity. Qed.

(** Subject ids are compared as the captures they are: the report keyed
    [1_task_rest] comes after the report of subject [10]. *)
Example sort_reports_by_capture :
  sort_reports ["sub-1_task_rest_bold.html"; "sub-10_T1w.html"; "sub-1_T1w.html"]
  = inr ["sub-1_T1w.html"; "sub-10_T1w.html"; "sub-1_task_rest_bold.html"].
Proof. vm_compute. reflexivity. Qed.

Lemma rmap_inl {A B} (f : A -> result B) (l : list A) a e :
  a ∈ l -> f a = inl e -> exists e', rmap f l = inl e'.
Proof.
  intros Hin Ha. induction l as [|b l IH]; [by apply elem_of_nil in Hin|].
  simpl. destruct (f b) as [e1|b1] eqn:Hb; simpl; [by eexists|].
  apply elem_of_cons in Hin as [->|Hin]; [congruence|].
  destruct (IH Hin) as [e' ->]. by eexists.
Qed.

(** Nothing catches an exception of [define_order] on the way: a listing
    with a file name on which it raises is not sorted at all. *)
Lemma sort_reports_propagates (l : list string) file e :
  file ∈ l -> define_order file = inl e ->
  exists e', sort_reports l = inl e'.
Proof.
  intros Hin Hraise.
  destruct (rmap_inl define_order l file e Hin Hraise) as [e' He].
  exists e'. unfold sort_reports, sort_by_key. by rewrite He.
Qed.

(** C1.  The three reports of subject 01 sort with the exclusion session
    first, the pilot session second and the numbered session last. *)
Theorem sort_reports_example :
  sort_reports ["sub-01_ses-02_T1w.html"; "sub-01_ses-excl01_T1w.html";
                "sub-01_ses-pilot03_T1w.html"]
  = inr ["sub-01_ses-excl01_T1w.html"; "sub-01_ses-pilot03_T1w.html";
         "sub-01_ses-02_T1w.html"].
Proof. vm_compute. reflexivity. Qed.

(** ** Sorting *)

Lemma str_lt_false a b : str_lt b a = false <-> String.le a b.
Proof.
  unfold str_lt, String.ltb, String.le, String.leb.
  rewrite String.compare_antisym.
  destruct (String.compare a b); simpl; intuition congruence.
Qed.

Lemma str_lt_true a b : str_lt b a = true <-> ~ String.le a b.
Proof.
  rewrite <- str_lt_false. destruct (str_lt b a); intuition congruence.
Qed.

Lemma str_le_refl a : String.le a a.
Proof. reflexivity. Qed.

Lemma str_le_trans a b c : String.le a b -> String.le b c -> String.le a c.
Proof. intros. by etrans. Qed.

Lemma str_le_antisym a b : String.le a b -> String.le b a -> a = b.
Proof. intros. by apply (anti_symm String.le). Qed.

Lemma str_le_total a b : String.le a b \/ String.le b a.
Proof. apply (total String.le). Qed.

Lemma key_lt_numbers s1 m1 t1 n1 r1 s2 m2 t2 n2 r2 :
  key_lt (s1, m1, t1, n1, r1) (s2, m2, t2, n2, r2) =
  if negb (String.eqb s1 s2) then str_lt s1 s2
  else numbers_lt (m1, t1, n1, r1) (m2, t2, n2, r2).
Proof. reflexivity. Qed.

Ltac numbers_cases :=
  unfold numbers_lt;
  repeat match goal with
         | |- context [Z.eqb ?a ?b] => destruct (Z.eqb_spec a b); subst
         end;
  simpl; lia.

Lemma numbers_lt_asym a b : numbers_lt a b = true -> numbers_lt b a = false.
Proof.
  destruct a as [[[m1 t1] n1] r1], b as [[[m2 t2] n2] r2]. numbers_cases.
Qed.

Lemma numbers_le_trans a b c :
  numbers_lt b a = false -> numbers_lt c b = false -> numbers_lt c a = false.
Proof.
  destruct a as [[[m1 t1] n1] r1], b as [[[m2 t2] n2] r2],
           c as [[[m3 t3] n3] r3].
  numbers_cases.
Qed.

Lemma key_le_cases s1 m1 t1 n1 r1 s2 m2 t2 n2 r2 :
  key_le (s1, m1, t1, n1, r1) (s2, m2, t2, n2, r2) <->
  (s1 <> s2 /\ String.le s1 s2) \/
  (s1 = s2 /\ numbers_lt (m2, t2, n2, r2) (m1, t1, n1, r1) = false).
Proof.
  unfold key_le. rewrite key_lt_numbers.
  destruct (String.eqb_spec s2 s1) as [->|Hne]; cbn [negb].
  - intuition congruence.
  - rewrite str_lt_false. intuition congruence.
Qed.

Lemma key_lt_asym a b : key_lt a b = true -> key_le a b.
Proof.
  destruct a as [[[[s1 m1] t1] n1] r1], b as [[[[s2 m2] t2] n2] r2].
  rewrite key_le_cases, key_lt_numbers.
  destruct (String.eqb_spec s1 s2) as [->|Hne]; cbn [negb].
  - intros H. right. split; [done | by apply numbers_lt_asym].
  - rewrite str_lt_true. intros H. left. split; [done|].
    by destruct (str_le_total s1 s2).
Qed.

Lemma key_le_trans a b c : key_le a b -> key_le b c -> key_le a c.
Proof.
  destruct a as [[[[s1 m1] t1] n1] r1], b as [[[[s2 m2] t2] n2] r2],
           c as [[[[s3 m3] t3] n3] r3].
  rewrite !key_le_cases.
  intros [[Hne12 H12]|[-> H12]] [[Hne23 H23]|[-> H23]].
  - left. split; [|by eapply str_le_trans].
    intros ->. apply Hne12. by apply str_le_antisym.
  - by left.
  - by left.
  - right. split; [done | by eapply numbers_le_trans].
Qed.

Lemma key_le_refl a : key_le a a.
Proof.
  destruct a as [[[[s1 m1] t1] n1] r1]. apply key_le_cases. right.
  split; [done|]. numbers_cases.
Qed.

(** Where two keys are in order, so are their subjects, and with equal
    subjects their modality priorities. *)
Lemma key_le_subject s1 m1 t1 n1 r1 s2 m2 t2 n2 r2 :
  key_le (s1, m1, t1, n1, r1) (s2, m2, t2, n2, r2) ->
  String.le s1 s2 /\ (s1 = s2 -> (m1 <= m2)%Z).
Proof.
  rewrite key_le_cases. intros [[Hne Hle]|[-> Hnum]].
  - split; [done | by intros ?].
  - split; [apply str_le_refl|]. intros _. revert Hnum. numbers_cases.
Qed.

(** *** The stable insertion sort *)

Section SortFacts.
Context {K A : Type} (lt : K -> K -> bool).

Let le (x y : K * A) : Prop := lt (fst y) (fst x) = false.

Hypothesis lt_asym : forall a b, lt a b = true -> lt b a = false.
Hypothesis le_trans : forall a b c,
  lt b a = false -> lt c b = false -> lt c a = false.

Lemma insert_stable_perm (x : K * A) l : insert_stable lt x l ≡ₚ x :: l.
Proof.
  induction l as [|y l IH]; simpl; [done|].
  destruct (lt (fst x) (fst y)); [done|].
  rewrite IH. apply perm_swap.
Qed.

Lemma insert_stable_sorted x l :
  StronglySorted le l -> StronglySorted le (insert_stable lt x l).
Proof.
  induction 1 as [|y l Hs IH Hy]; simpl.
  - repeat constructor.
  - destruct (lt (fst x) (fst y)) eqn:Hxy.
    + constructor; [by constructor|].
      assert (Hxy' : le x y) by (by apply lt_asym).
      constructor; [done|].
      eapply Forall_impl; [exact Hy|]. intros z Hz.
      unfold le in *. by eapply le_trans.
    + constructor; [done|].
      rewrite insert_stable_perm. by constructor.
Qed.

Lemma stable_sort_from_perm (acc l : list (K * A)) :
  fold_left (fun sorted x => insert_stable lt x sorted) l acc ≡ₚ acc ++ l.
Proof.
  revert acc; induction l as [|x l IH]; intros acc; simpl.
  - by rewrite app_nil_r.
  - rewrite IH, insert_stable_perm. simpl. apply Permutation_middle.
Qed.

Lemma stable_sort_perm (l : list (K * A)) : stable_sort lt l ≡ₚ l.
Proof. apply (stable_sort_from_perm [] l). Qed.

Lemma stable_sort_from_sorted (acc l : list (K * A)) :
  StronglySorted le acc ->
  StronglySorted le (fold_left (fun sorted x => insert_stable lt x sorted) l acc).
Proof.
  revert acc; induction l as [|x l IH]; intros acc Hacc; simpl; [done|].
  apply IH. by apply insert_stable_sorted.
Qed.

Lemma stable_sort_sorted (l : list (K * A)) : StronglySorted le (stable_sort lt l).
Proof. apply stable_sort_from_sorted. constructor. Qed.

(** Stability: the elements level with a key [k] come out in the order in
which they went in.  With sortedness and rearrangement this fixes the result,
so that any stable sort returns the same list. *)
Lemma insert_stable_level k (x : K * A) l :
  StronglySorted le l ->
  List.filter (fun p => level lt k (fst p)) (insert_stable lt x l) =
  List.filter (fun p => level lt k (fst p)) l
    ++ (if level lt k (fst x) then [x] else []).
Proof.
  induction 1 as [|y l Hs IH Hy]; simpl.
  - by destruct (level lt k (fst x)).
  - destruct (lt (fst x) (fst y)) eqn:Hxy; simpl.
    + destruct (level lt k (fst x)) eqn:Hkx; [|by rewrite app_nil_r].
      apply andb_true_iff in Hkx as [Hkx1 Hkx2].
      apply negb_true_iff in Hkx1, Hkx2.
      assert (Hnone : forall z, z ∈ y :: l -> level lt k (fst z) = false).
      { intros z Hz. apply not_true_is_false. intros Hkz.
        apply andb_true_iff in Hkz as [Hkz1 Hkz2].
        apply negb_true_iff in Hkz1, Hkz2.
        assert (Hzx : lt (fst x) (fst z) = false) by (by eapply le_trans).
        assert (Hyz : lt (fst z) (fst y) = false).
        { apply elem_of_cons in Hz as [->|Hz].
          - destruct (lt (fst y) (fst y)) eqn:E; [|done].
            by rewrite (lt_asym _ _ E) in E.
          - rewrite Forall_forall in Hy. by apply Hy. }
        rewrite (le_trans _ _ _ Hyz Hzx) in Hxy. done. }
      rewrite (Hnone y) by left.
      assert (Hl : List.filter (fun p => level lt k (fst p)) l = []).
      { clear -Hnone. induction l as [|z l IHl]; simpl; [done|].
        rewrite (Hnone z) by (right; left).
        apply IHl. intros z' Hz'. apply Hnone.
        apply elem_of_cons in Hz' as [->|Hz']; [left | right; by right]. }
      by rewrite Hl.
    + rewrite IH. by destruct (level lt k (fst y)).
Qed.

Lemma stable_sort_from_level k (acc l : list (K * A)) :
  StronglySorted le acc ->
  List.filter (fun p => level lt k (fst p))
    (fold_left (fun sorted x => insert_stable lt x sorted) l acc) =
  List.filter (fun p => level lt k (fst p)) acc
    ++ List.filter (fun p => level lt k (fst p)) l.
Proof.
  revert acc; induction l as [|x l IH]; intros acc Hacc; simpl.
  - by rewrite app_nil_r.
  - rewrite IH by (by apply insert_stable_sorted).
    rewrite insert_stable_level by done.
    rewrite <- app_assoc. by destruct (level lt k (fst x)).
Qed.

Lemma stable_sort_level k (l : list (K * A)) :
  List.filter (fun p => level lt k (fst p)) (stable_sort lt l) =
  List.filter (fun p => level lt k (fst p)) l.
Proof. apply (stable_sort_from_level k [] l). constructor. Qed.
End SortFacts.

Lemma StronglySorted_lookup {A} (R : A -> A -> Prop) (l : list A) i j x y :
  StronglySorted R l -> i < j -> l !! i = Some x -> l !! j = Some y -> R x y.
Proof.
  intros Hs; revert i j; induction Hs as [|a l Hs IH Ha]; intros i j Hij Hi Hj.
  - done.
  - destruct j as [|j]; [lia|]. destruct i as [|i]; simpl in *.
    + injection Hi as <-. rewrite Forall_forall in Ha. apply Ha.
      by eapply list_elem_of_lookup_2.
    + apply (IH i j); [lia | done | done].
Qed.

Lemma rmap_inr {A B} (f : A -> result B) (l : list A) :
  Forall (fun a => exists b, f a = inr b) l ->
  exists bs, rmap f l = inr bs /\ Forall2 (fun a b => f a = inr b) l bs.
Proof.
  induction 1 as [|a l [b Hb] _ (bs & Hbs & HF)]; simpl.
  - exists []. by split.
  - exists (b :: bs). rewrite Hb, Hbs. simpl. split; [done | by constructor].
Qed.

Lemma combine_keys {A B} (R : A -> B -> Prop) (l : list A) (bs : list B) :
  Forall2 R l bs ->
  Forall (fun p => R (snd p) (fst p)) (combine bs l) /\
  map snd (combine bs l) = l.
Proof.
  induction 1 as [|a b l bs Hab _ [IH1 IH2]]; simpl.
  - by split.
  - split; [by constructor | by rewrite IH2].
Qed.

Lemma define_order_key file k :
  define_order file = inr k ->
  exists sid t n r,
    subject_id_of file = Some sid /\
    k = (sid, modality_priority_of file, t, n, r).
Proof.
  intros Hk. unfold subject_id_of.
  destruct (Re.search "sub-(\w+)_" file) as [m|] eqn:Hm.
  - rewrite (define_order_found file m Hm) in Hk.
    destruct (match Re.search "run-(\w+)_" file with
              | Some run_match => int_ (Re.group1 run_match)
              | None => inr 0%Z
              end) as [e|z]; simpl in Hk; [done|].
    injection Hk as <-. by eexists _, _, _, _.
  - unfold define_order in Hk. by rewrite Hm in Hk.
Qed.

(** The subject id that [define_order] takes is the [id] of a [sub-<id>_]
    segment of the file name. *)
Lemma subject_id_of_segment file sid :
  subject_id_of file = Some sid -> segment "sub-" Re.Word file sid.
Proof.
  unfold subject_id_of. intros Hs.
  destruct (Re.search "sub-(\w+)_" file) as [m|] eqn:Hm; [|done].
  injection Hs as <-. by apply (search_tagged_Some "sub-(\w+)_").
Qed.

(** Which segment it is.  The repetition [\w+] is greedy and the underscore
    is a word character, so the capture runs to the last underscore of the run
    of word characters that follows the tag. *)
Lemma greedy_cons x cap k a s :
  Re.greedy x cap k (String a s) =
  if Re.accepts x a then
    match Re.greedy x cap k s with
    | Some g => Some (Re.keep cap a g)
    | None => k (String a s)
    end
  else k (String a s).
Proof. reflexivity. Qed.

Lemma match_here_plus x cap p a s :
  Re.match_here (Re.Tok x Re.Plus cap :: p) (String a s) =
  if Re.accepts x a then Re.keep cap a <$> Re.greedy x cap (Re.match_here p) s
  else None.
Proof. reflexivity. Qed.

Lemma underscore_here a s :
  Re.match_here [Re.Tok (Re.Lit "_") Re.One false] (String a s) =
  if Ascii.eqb a "_" then Some EmptyString else None.
Proof. simpl. by destruct (Ascii.eqb a "_"). Qed.

Lemma greedy_no_underscore u tail :
  all_accept Re.Word u = true -> without "_" u = true -> ends_word tail = true ->
  Re.greedy Re.Word true
    (Re.match_here [Re.Tok (Re.Lit "_") Re.One false]) (u +:+ tail) = None.
Proof.
  intros Hw Hu Ht. induction u as [|a u IH].
  - destruct tail as [|b t]; [done|].
    simpl in Ht. apply negb_true_iff in Ht.
    cbn [String.append]. rewrite greedy_cons. cbn [Re.accepts]. rewrite Ht.
    rewrite underscore_here.
    destruct (Ascii.eqb_spec b "_") as [->|]; [done | done].
  - simpl in Hw, Hu.
    apply andb_true_iff in Hw as [Ha Hw]. apply andb_true_iff in Hu as [Hne Hu].
    cbn [String.append]. rewrite greedy_cons. cbn [Re.accepts].
    rewrite Ha, (IH Hw Hu), underscore_here.
    apply negb_true_iff in Hne. by rewrite Hne.
Qed.

Lemma greedy_last_underscore id u tail :
  all_accept Re.Word id = true ->
  all_accept Re.Word u = true -> without "_" u = true -> ends_word tail = true ->
  Re.greedy Re.Word true
    (Re.match_here [Re.Tok (Re.Lit "_") Re.One false])
    (id +:+ String "_" (u +:+ tail)) = Some id.
Proof.
  intros Hid Hw Hu Ht. induction id as [|a id IH].
  - cbn [String.append]. rewrite greedy_cons.
    rewrite (greedy_no_underscore u tail Hw Hu Ht). by rewrite underscore_here.
  - simpl in Hid. apply andb_true_iff in Hid as [Ha Hid].
    cbn [String.append]. rewrite greedy_cons. cbn [Re.accepts].
    by rewrite Ha, (IH Hid).
Qed.

Lemma match_here_lits tag p s :
  Re.match_here (lits tag ++ p) (tag +:+ s) = Re.match_here p s.
Proof.
  induction tag as [|a tag IH]; simpl; [done|].
  rewrite Ascii.eqb_refl, IH. by destruct (Re.match_here p s).
Qed.

Lemma scan_here p s g : Re.match_here p s = Some g -> Re.scan p s = Some g.
Proof. intros Hm. destruct s; simpl; by rewrite Hm. Qed.

Lemma scan_skip p c before s :
  (exists q, p = Re.Tok (Re.Lit c) Re.One false :: q) ->
  without c before = true ->
  Re.scan p (before +:+ s) = Re.scan p s.
Proof.
  intros [q ->] Hb. induction before as [|a before IH]; [done|].
  simpl in Hb. apply andb_true_iff in Hb as [Ha Hb].
  apply negb_true_iff in Ha. simpl. rewrite Ha. by apply IH.
Qed.

(** For a file name of the naming convention (the tag [sub-], a label, an
    underscore, then a word without underscore up to a hyphen, a dot or the
    end), in a folder whose name has no [s], the subject id of [define_order]
    is the label. *)
Lemma subject_id_of_label folder id u tail :
  without "s" folder = true ->
  id <> EmptyString -> all_accept Re.Word id = true ->
  all_accept Re.Word u = true -> without "_" u = true -> ends_word tail = true ->
  subject_id_of (folder +:+ "sub-" +:+ id +:+ "_" +:+ u +:+ tail) = Some id.
Proof.
  intros Hf Hne Hid Hw Hu Ht. unfold subject_id_of, Re.search.
  change (Re.compile "sub-(\w+)_") with (tagged "sub-" Re.Word).
  rewrite (scan_skip _ "s" folder) by (by eauto).
  assert (Hm : Re.match_here (tagged "sub-" Re.Word)
                 ("sub-" +:+ id +:+ "_" +:+ u +:+ tail) = Some id).
  { unfold tagged. rewrite match_here_lits.
    destruct id as [|a id]; [done|]. simpl in Hid.
    apply andb_true_iff in Hid as [Ha Hid].
    change (String a id +:+ "_" +:+ u +:+ tail)
      with (String a (id +:+ String "_" (u +:+ tail))).
    rewrite match_here_plus. cbn [Re.accepts]. rewrite Ha.
    by rewrite (greedy_last_underscore id u tail Hid Hw Hu Ht). }
  by rewrite (scan_here _ _ _ Hm).
Qed.

Example subject_id_of_label_two_folders :
  subject_id_of "/condition1/sub-01_ses-02_T1w.html" = Some "01".
Proof.
  apply (subject_id_of_label "/condition1/" "01" "ses" "-02_T1w.html");
    first [reflexivity | discriminate].
Qed.

(** What sorting by [define_order] returns: a rearrangement of the list in
    which the keys never decrease. *)
Lemma sort_reports_sorted (l : list string) :
  Forall valid l ->
  exists d : list (key * string),
    sort_reports l = inr (map snd d) /\ map snd d ≡ₚ l /\
    Forall (fun p => define_order (snd p) = inr (fst p)) d /\
    StronglySorted (fun x y => key_le (fst x) (fst y)) d.
Proof.
  intros Hvalid. destruct (rmap_inr define_order l Hvalid) as (keys & Hk & HF).
  destruct (combine_keys _ _ _ HF) as [Hd Hsnd].
  exists (stable_sort key_lt (combine keys l)).
  assert (Hp : stable_sort key_lt (combine keys l) ≡ₚ combine keys l)
    by apply stable_sort_perm.
  split; [|split; [|split]].
  - unfold sort_reports, sort_by_key. by rewrite Hk.
  - by rewrite Hp, Hsnd.
  - by rewrite Hp.
  - apply stable_sort_sorted.
    + exact key_lt_asym.
    + intros a b c. exact (key_le_trans a b c).
Qed.

(** Sorting a list of valid file names with [define_order] as the key
    returns a rearrangement of the list in which the reports with one subject
    capture stand next to each other and, for one capture, the modality
    priorities of the keys never decrease. *)
Lemma sort_reports_groups_by_capture (l : list string) :
  Forall valid l ->
  exists out,
    sort_reports l = inr out /\ out ≡ₚ l /\
    (forall i j k fi fj fk,
        i <= j -> j <= k ->
        out !! i = Some fi -> out !! j = Some fj -> out !! k = Some fk ->
        subject_id_of fi = subject_id_of fk ->
        subject_id_of fj = subject_id_of fi) /\
    (forall i j fi fj,
        i <= j -> out !! i = Some fi -> out !! j = Some fj ->
        subject_id_of fi = subject_id_of fj ->
        (modality_priority_of fi <= modality_priority_of fj)%Z).
Proof.
  intros Hvalid.
  destruct (sort_reports_sorted l Hvalid) as (d & Hsort & Hperm & Hkeys & Hsorted).
  exists (map snd d). split; [done|]. split; [done|].
  assert (Hat : forall i f, map snd d !! i = Some f ->
            exists sid t n r,
              d !! i = Some ((sid, modality_priority_of f, t, n, r), f) /\
              subject_id_of f = Some sid).
  { intros i f Hi. rewrite list_lookup_fmap in Hi.
    destruct (d !! i) as [[k f']|] eqn:Hdi; [|done]. injection Hi as ->.
    rewrite Forall_forall in Hkeys.
    assert (Hk : define_order f = inr k).
    { apply (Hkeys (k, f)). by eapply list_elem_of_lookup_2. }
    destruct (define_order_key f k Hk) as (sid & t & n & r & Hs & ->).
    by exists sid, t, n, r. }
  assert (Hle : forall i j x y, i <= j -> d !! i = Some x -> d !! j = Some y ->
            key_le (fst x) (fst y)).
  { intros i j x y Hij Hi Hj. destruct (decide (i = j)) as [->|Hne].
    - rewrite Hi in Hj. injection Hj as ->. apply key_le_refl.
    - apply (StronglySorted_lookup _ d i j x y Hsorted); [lia | done | done]. }
  split.
  - intros i j k fi fj fk Hij Hjk Hi Hj Hk Hsame.
    destruct (Hat i fi Hi) as (si & ti & ni & ri & Hdi & Hsi).
    destruct (Hat j fj Hj) as (sj & tj & nj & rj & Hdj & Hsj).
    destruct (Hat k fk Hk) as (sk & tk & nk & rk & Hdk & Hsk).
    rewrite Hsi, Hsk in Hsame. injection Hsame as ->.
    rewrite Hsi, Hsj. f_equal.
    apply (Hle i j _ _ Hij Hdi) in Hdj as Hle1.
    apply (Hle j k _ _ Hjk Hdj) in Hdk as Hle2.
    apply key_le_subject in Hle1 as [Hle1 _].
    apply key_le_subject in Hle2 as [Hle2 _].
    by apply str_le_antisym.
  - intros i j fi fj Hij Hi Hj Hsame.
    destruct (Hat i fi Hi) as (si & ti & ni & ri & Hdi & Hsi).
    destruct (Hat j fj Hj) as (sj & tj & nj & rj & Hdj & Hsj).
    rewrite Hsi, Hsj in Hsame. injection Hsame as ->.
    apply (Hle i j _ _ Hij Hdi) in Hdj as Hle1.
    apply key_le_subject in Hle1 as [_ Hm]. by apply Hm.
Qed.

Lemma first_matching_rank patterns file : forall i,
  first_matching i patterns file (i + len patterns) =
  (i + Z.of_nat (rank_in patterns file))%Z.
Proof.
  unfold rank_in.
  induction patterns as [|p ps IH]; intros i; simpl.
  - unfold len. simpl. lia.
  - replace (i + len (p :: ps))%Z with (i + 1 + len ps)%Z
      by (unfold len; simpl length; lia).
    case_decide as Hp.
    + destruct (Re.search p file); [lia | by destruct Hp].
    + destruct (Re.search p file) as [m|]; [by destruct Hp; eexists|].
      rewrite IH.
      destruct (list_find (fun q => is_Some (Re.search q file)) ps)
        as [[j q]|]; simpl; lia.
Qed.

(** The modality priority of the key is the rank that the specification
    describes. *)
Lemma modality_priority_of_rank file :
  modality_priority_of file = Z.of_nat (spec_modality_rank file).
Proof.
  unfold modality_priority_of, spec_modality_rank.
  change MODALITY_ORDER with PRIORITY_LIST.
  pose proof (first_matching_rank PRIORITY_LIST file 0) as H.
  rewrite !Z.add_0_l in H. exact H.
Qed.

Lemma keyed_by_label_valid file : keyed_by_label file -> valid file.
Proof. intros (k & Hk & _). by exists k. Qed.

Lemma keyed_by_label_capture file :
  keyed_by_label file -> subject_id_of file = label_of file.
Proof.
  intros (k & Hk & Hl).
  destruct (define_order_key file k Hk) as (sid & t & n & r & Hs & ->).
  by rewrite Hs, Hl.
Qed.

Lemma prefix_append (p f : string) : String.prefix p (p +:+ f) = true.
Proof.
  induction p as [|a p IH]; simpl; [by destruct f|].
  by destruct (ascii_dec a a).
Qed.

Lemma prefix_head_ne c s a r :
  a <> c -> String.prefix (String c s) (String a r) = false.
Proof.
  intros Hne.
  change (String.prefix (String c s) (String a r))
    with (if ascii_dec c a then String.prefix s r else false).
  destruct (ascii_dec c a); congruence.
Qed.

Lemma substring_all (s : string) : String.substring 0 (String.length s) s = s.
Proof. induction s as [|a s IH]; simpl; [done | by rewrite IH]. Qed.

Lemma substring_after (p x : string) :
  String.substring (String.length p)
    (String.length (p +:+ x) - String.length p) (p +:+ x) = x.
Proof.
  induction p as [|a p IH]; simpl.
  - rewrite Nat.sub_0_r. apply substring_all.
  - exact IH.
Qed.

Lemma after_first_here (tag x : string) :
  after_first tag (tag +:+ x) = Some x.
Proof.
  assert (H : forall s, String.prefix tag s = true ->
                after_first tag s =
                Some (String.substring (String.length tag)
                        (String.length s - String.length tag) s)).
  { intros s Hs. destruct s; cbn [after_first]; by rewrite Hs. }
  rewrite H by apply prefix_append. by rewrite substring_after.
Qed.

Lemma after_first_skip c tag folder x :
  without c folder = true ->
  after_first (String c tag) (folder +:+ x) = after_first (String c tag) x.
Proof.
  intros Hf. induction folder as [|a folder IH]; [done|].
  simpl in Hf. apply andb_true_iff in Hf as [Ha Hf].
  apply negb_true_iff, Ascii.eqb_neq in Ha.
  cbn [String.append after_first].
  rewrite (prefix_head_ne c tag a _ Ha). by apply IH.
Qed.

Lemma until_underscore_label id rest :
  without "_" id = true ->
  until_underscore (id +:+ String "_" rest) = Some id.
Proof.
  intros Hid. induction id as [|a id IH]; [done|].
  simpl in Hid. apply andb_true_iff in Hid as [Ha Hid].
  apply negb_true_iff in Ha. cbn [String.append until_underscore].
  by rewrite Ha, (IH Hid).
Qed.

(** The file names of the naming convention are keyed by their label: in a
    folder whose name has no [s], the tag [sub-], a label of word characters
    other than the underscore, an underscore, then a word without underscore
    up to a hyphen, a dot or the end. *)
Lemma conventional_keyed_by_label folder id u tail :
  without "s" folder = true ->
  id <> EmptyString -> all_accept Re.Word id = true -> without "_" id = true ->
  all_accept Re.Word u = true -> without "_" u = true -> ends_word tail = true ->
  valid (folder +:+ "sub-" +:+ id +:+ "_" +:+ u +:+ tail) ->
  keyed_by_label (folder +:+ "sub-" +:+ id +:+ "_" +:+ u +:+ tail).
Proof.
  intros Hf Hne Hid Hid' Hw Hu Ht [k Hk]. exists k. split; [exact Hk|].
  pose proof (subject_id_of_label folder id u tail Hf Hne Hid Hw Hu Ht) as Hs.
  destruct (define_order_key _ k Hk) as (sid & t & n & r & Hsid & ->).
  rewrite Hs in Hsid. injection Hsid as <-. cbn [fst].
  unfold label_of.
  change "sub-" with (String "s" "ub-") at 1.
  rewrite (after_first_skip "s" "ub-" folder _ Hf).
  change (String "s" "ub-") with "sub-".
  rewrite (after_first_here "sub-"). cbn [mbind option_bind].
  exact (until_underscore_label id (u +:+ tail) Hid').
Qed.

(** C2 (as amended).  For every list of file names for which [define_order]
    returns a key whose subject id is the [<id>] of the [sub-<id>_] segment
    (the text between the first [sub-] and the next underscore), sorting with
    [define_order] as the key returns a rearrangement of the list in which
    the reports of one [<id>] stand next to each other and, within one
    [<id>], the modalities come in the order of the fixed priority list. *)
Theorem sort_reports_groups_by_label (l : list string) :
  Forall keyed_by_label l ->
  exists out,
    sort_reports l = inr out /\ out ≡ₚ l /\
    grouped_by_label out /\ modalities_in_order out.
Proof.
  intros Hl.
  assert (Hv : Forall valid l).
  { eapply Forall_impl; [exact Hl | exact keyed_by_label_valid]. }
  destruct (sort_reports_groups_by_capture l Hv) as (out & Hs & Hp & Hg & Hm).
  exists out. split; [done|]. split; [done|].
  assert (Hcap : forall i f, out !! i = Some f ->
                   subject_id_of f = label_of f).
  { intros i f Hi. apply keyed_by_label_capture.
    rewrite Forall_forall in Hl. apply Hl. rewrite <- Hp.
    by eapply list_elem_of_lookup_2. }
  split.
  - intros i j k fi fj fk Hij Hjk Hi Hj Hk Hsame.
    rewrite <- (Hcap i fi Hi), <- (Hcap j fj Hj).
    apply (Hg i j k fi fj fk Hij Hjk Hi Hj Hk).
    by rewrite (Hcap i fi Hi), (Hcap k fk Hk).
  - intros i j fi fj Hij Hi Hj Hsame.
    apply Nat2Z.inj_le. rewrite <- !modality_priority_of_rank.
    apply (Hm i j fi fj Hij Hi Hj).
    by rewrite (Hcap i fi Hi), (Hcap j fj Hj).
Qed.

Lemma sort_reports_groups_by_label_witness :
  exists out,
    sort_reports ["sub-02_T1w.html"; "sub-01_ses-02_task-qct_run-01_bold.html";
                  "sub-01_T2w.html"; "sub-02_task-bht_bold.html";
                  "sub-01_ses-02_T1w.html"] = inr out /\
    out ≡ₚ ["sub-02_T1w.html"; "sub-01_ses-02_task-qct_run-01_bold.html";
            "sub-01_T2w.html"; "sub-02_task-bht_bold.html";
            "sub-01_ses-02_T1w.html"] /\
    grouped_by_label out /\ modalities_in_order out.
Proof.
  apply sort_reports_groups_by_label.
  repeat constructor; eexists; (split; [vm_compute; reflexivity | reflexivity]).
Defined.

(** C2 as it was stated fails.  The capture of [\w+] is greedy and takes
    underscores, so a valid name with two words after the label is keyed by a
    longer text than its [<id>]: the three names below are valid, the reports
    of subject 1 come out with the report of subject 10 between them, and for
    subject 1 the [_T2w] report (rank 4) comes before the resting-state report
    (rank 3). *)
Lemma sort_reports_splits_label :
  Forall valid ["sub-1_task_rest_bold.html"; "sub-10_T1w.html"; "sub-1_T2w.html"] /\
  sort_reports ["sub-1_task_rest_bold.html"; "sub-10_T1w.html"; "sub-1_T2w.html"]
    = inr ["sub-1_T2w.html"; "sub-10_T1w.html"; "sub-1_task_rest_bold.html"] /\
  ~ grouped_by_label
      ["sub-1_T2w.html"; "sub-10_T1w.html"; "sub-1_task_rest_bold.html"] /\
  ~ modalities_in_order
      ["sub-1_T2w.html"; "sub-10_T1w.html"; "sub-1_task_rest_bold.html"].
Proof.
  split; [repeat constructor; eexists; vm_compute; reflexivity|].
  split; [vm_compute; reflexivity|]. split.
  - intros H.
    specialize (H 0 1 2 "sub-1_T2w.html" "sub-10_T1w.html"
                  "sub-1_task_rest_bold.html"
                  ltac:(lia) ltac:(lia) eq_refl eq_refl eq_refl eq_refl).
    vm_compute in H. discriminate H.
  - intros H.
    specialize (H 0 2 "sub-1_T2w.html" "sub-1_task_rest_bold.html"
                  ltac:(lia) eq_refl eq_refl eq_refl).
    vm_compute in H. lia.
Qed.

(** ** Shuffling, anonymising, repeating *)

Lemma pick_all {A} `{Inhabited A} (l : list A) :
  (fun i => l !!! i) <$> seq 0 (length l) = l.
Proof.
  apply list_eq. intros i. rewrite list_lookup_fmap.
  destruct (decide (i < length l)) as [Hlt|Hge].
  - rewrite lookup_seq_lt by done. simpl.
    destruct (lookup_lt_is_Some_2 l i Hlt) as [x Hx].
    by rewrite (list_lookup_total_correct l i x Hx), Hx.
  - rewrite lookup_seq_ge by lia. simpl.
    symmetry. apply lookup_ge_None. lia.
Qed.

Lemma pick_elem_of {A} `{Inhabited A} (l : list A) (picks : list nat) :
  Forall (fun i => i < length l) picks ->
  Forall (fun x => x ∈ l) ((fun i => l !!! i) <$> picks).
Proof.
  intros Hp. apply Forall_fmap. eapply Forall_impl; [exact Hp|].
  intros i Hi. simpl. apply list_elem_of_lookup_total_2. exact Hi.
Qed.

Section ReportFacts.
Context {R : Random}.

(** What a call of [shuffle_reports] does: it builds one new list. *)
Lemma shuffle_reports_run (w : world) l files s :
  heap w !! l = Some files ->
  let r := fresh (dom (heap w)) in
  (exists w',
    shuffle_reports l s w = (inr r, w') /\
    (r ∉ dom (heap w)) /\
    heap w' = <[r := shuffled s files]> (heap w) /\
    demo_txt w' = demo_txt w).
Proof.
  intros Hl r.
  unfold shuffle_reports, deepcopy, bind, random_seed, elements, new_list,
    random_shuffle, ret, shuffled. simpl.
  rewrite (lookup_total_correct _ _ _ Hl). fold r.
  rewrite lookup_total_insert_eq.
  destruct (shuffle_order (seed s) (length files)) as [order g] eqn:Ho.
  eexists. split; [reflexivity|]. simpl.
  split; [apply is_fresh|]. split; [|done].
  by rewrite insert_insert_eq.
Qed.

Lemma anonymize_reports_run (w : world) l files dataset_name :
  heap w !! l = Some files ->
  let r := fresh (dom (heap w)) in
  (exists w',
    anonymize_reports l dataset_name w = (inr r, w') /\
    (r ∉ dom (heap w)) /\
    heap w' = <[r := labels dataset_name (length files)]> (heap w) /\
    rng w' = rng w /\ demo_txt w' = demo_txt w).
Proof.
  intros Hl r.
  unfold anonymize_reports, bind, elements, new_list, ret, labels. simpl.
  rewrite (lookup_total_correct _ _ _ Hl). fold r.
  eexists. split; [reflexivity|]. simpl.
  split; [apply is_fresh | done].
Qed.

(** What a call of [repeat_reports] does: it extends the list it was
    given by the reports at the drawn positions of the pool and, with two
    folders, by their counterparts of the second folder. *)
Lemma repeat_reports_run (w : world) l files k two_folders :
  heap w !! l = Some files ->
  (0 <= k <= len (pool two_folders files))%Z ->
  let picks :=
    (sample_picks (seed 764247) (length (pool two_folders files)) (Z.to_nat k)).1 in
  let chosen := (fun i => pool two_folders files !!! i) <$> picks in
  (exists w',
    repeat_reports l k two_folders w = (inr l, w') /\
    heap w' =
      <[l := files ++
             (if two_folders
              then chosen ++ (replace "condition1" "condition2" <$> chosen)
              else chosen)]> (heap w)).
Proof.
  intros Hl Hk picks chosen.
  assert (Hin : ((0 <=? k)%Z && (k <=? len (pool two_folders files))%Z)%bool = true).
  { apply andb_true_iff. split; apply Z.leb_le; lia. }
  subst chosen picks.
  unfold repeat_reports, bind, random_seed, elements, random_sample,
    write_demo, list_extend, ret.
  assert (Hread : heap w !!! l = files) by by apply lookup_total_correct.
  change (220830 + 543417)%Z with 764247%Z.
  destruct two_folders; cbn [heap rng demo_txt pool] in *;
    rewrite !Hread, Hin;
    destruct (sample_picks (seed 764247) _ (Z.to_nat k)) as [picks g];
    cbn [heap rng demo_txt fst]; rewrite ?Hread;
    eexists; split; reflexivity.
Qed.

(** Asked for a negative number of repeats, or for more than the pool holds,
[random.sample] raises and the list stays as it was. *)
Lemma repeat_reports_raises (w : world) l files k two_folders :
  heap w !! l = Some files ->
  (k < 0 \/ len (pool two_folders files) < k)%Z ->
  exists w',
    repeat_reports l k two_folders w = (inl ValueError, w') /\
    heap w' = heap w.
Proof.
  intros Hl Hk.
  assert (Hout : ((0 <=? k)%Z && (k <=? len (pool two_folders files))%Z)%bool = false).
  { apply andb_false_iff. rewrite !Z.leb_gt. lia. }
  assert (Hread : heap w !!! l = files) by by apply lookup_total_correct.
  unfold repeat_reports, bind, random_seed, elements, random_sample,
    write_demo, list_extend, ret.
  destruct two_folders; cbn [heap rng demo_txt pool] in *;
    rewrite !Hread, Hout; eexists; split; reflexivity.
Qed.
End ReportFacts.

(** ** The generator of the examples keeps the laws *)

Lemma randbelow_lt n g : 0 < n -> (Lcg.randbelow n g).1 < n.
Proof.
  intros Hn. unfold Lcg.randbelow. simpl.
  assert (Lcg.next g mod N.of_nat n < N.of_nat n)%N by (apply N.mod_lt; lia).
  lia.
Qed.

Lemma swap_perm i j (x : list nat) :
  i < length x -> j < length x -> Lcg.swap i j x ≡ₚ x.
Proof.
  intros Hi Hj. apply Permutation_inj. split.
  - unfold Lcg.swap. by rewrite !length_insert.
  - exists (fun k => if decide (k = i) then j else if decide (k = j) then i else k).
    split.
    + intros a b. repeat case_decide; intros; subst; congruence.
    + intros k. unfold Lcg.swap.
      destruct (lookup_lt_is_Some_2 x i Hi) as [xi Hxi].
      destruct (lookup_lt_is_Some_2 x j Hj) as [xj Hxj].
      rewrite (list_lookup_total_correct x i xi Hxi).
      rewrite (list_lookup_total_correct x j xj Hxj).
      repeat case_decide; subst.
      * rewrite list_lookup_insert_eq by (by rewrite length_insert). done.
      * rewrite list_lookup_insert_ne by done.
        rewrite list_lookup_insert_eq by done. done.
      * by rewrite !list_lookup_insert_ne by done.
Qed.

Lemma exchanges_perm i : forall g (x : list nat),
  i = 0 \/ i < length x -> (Lcg.exchanges i g x).1 ≡ₚ x.
Proof.
  induction i as [|i IH]; intros g x Hi; [done|].
  destruct Hi as [?|Hi]; [done|].
  pose proof (randbelow_lt (S (S i)) g ltac:(lia)) as Hj.
  cbn [Lcg.exchanges]. unfold Lcg.randbelow in *. cbn [fst] in Hj.
  set (j := N.to_nat _) in *.
  assert (Hs : Lcg.swap (S i) j x ≡ₚ x) by (apply swap_perm; lia).
  rewrite IH; [exact Hs|]. right. rewrite (Permutation_length Hs). lia.
Qed.

Lemma lcg_shuffle_order_perm g n : (Lcg.shuffle_order g n).1 ≡ₚ seq 0 n.
Proof.
  apply exchanges_perm. rewrite length_seq. lia.
Qed.

#[export] Instance lcg_laws : RandomLaws Lcg.random.
Proof.
  assert (Htake : forall g n k,
            (@sample_picks Lcg.random g n k).1 = take k (Lcg.shuffle_order g n).1).
  { intros g n k. simpl. unfold Lcg.sample_picks.
    by destruct (Lcg.shuffle_order g n). }
  split.
  - exact lcg_shuffle_order_perm.
  - intros g n k Hk. rewrite Htake, length_take.
    rewrite (Permutation_length (lcg_shuffle_order_perm g n)), length_seq. lia.
  - intros g n k Hk. rewrite Htake. apply Forall_take.
    rewrite (lcg_shuffle_order_perm g n). apply Forall_forall.
    intros i Hi. apply elem_of_seq in Hi. lia.
  - intros g n k Hk. rewrite Htake.
    eapply sublist_NoDup; [|apply sublist_take].
    rewrite (lcg_shuffle_order_perm g n). apply NoDup_seq.
Qed.

(** ** What the three list functions return and change *)

Lemma fresh_ne `{R : Random} (w : world) l (files : list string) :
  heap w !! l = Some files -> fresh (dom (heap w)) <> l.
Proof.
  intros Hl Heq. apply (is_fresh (dom (heap w))). rewrite Heq.
  apply elem_of_dom. by eexists.
Qed.

Lemma labels_lookup dataset_name n i :
  1 <= i <= n ->
  labels dataset_name n !! (i - 1) =
  Some ("A-" +:+ dataset_name +:+ "_" +:+ str (Z.of_nat i)).
Proof.
  intros Hi. unfold labels, range1. rewrite !list_lookup_fmap.
  rewrite lookup_seq_lt by lia. simpl.
  by replace (S (i - 1)) with i by lia.
Qed.

Lemma labels_length dataset_name n : length (labels dataset_name n) = n.
Proof. unfold labels, range1. by rewrite !length_fmap, length_seq. Qed.

(** C5.  [shuffle_reports] is a function of the seed and of the elements of
    the list: two calls with the same seed on lists with the same elements
    return lists with the same elements in the same order, whatever the
    worlds (and so the states of the generator) in which they start. *)
Theorem shuffle_reports_deterministic `{R : Random} (w1 w2 : world)
    (l1 l2 : ref) (files : list string) (s : Z) :
  heap w1 !! l1 = Some files -> heap w2 !! l2 = Some files ->
  exists r1 w1' r2 w2' out,
    shuffle_reports l1 s w1 = (inr r1, w1') /\
    shuffle_reports l2 s w2 = (inr r2, w2') /\
    heap w1' !! r1 = Some out /\ heap w2' !! r2 = Some out.
Proof.
  intros H1 H2.
  destruct (shuffle_reports_run w1 l1 files s H1) as (w1' & Hr1 & _ & Hh1 & _).
  destruct (shuffle_reports_run w2 l2 files s H2) as (w2' & Hr2 & _ & Hh2 & _).
  exists (fresh (dom (heap w1))), w1', (fresh (dom (heap w2))), w2',
         (shuffled s files).
  rewrite Hh1, Hh2, !lookup_insert_eq. done.
Qed.

Lemma shuffle_reports_deterministic_witness :
  exists r1 w1' r2 w2' out,
    shuffle_reports 0 42 (world0 [["a"; "b"; "c"; "d"]]) = (inr r1, w1') /\
    shuffle_reports 1 42
      (@World Lcg.random {[ 1 := ["a"; "b"; "c"; "d"] ]} 2024%N None)
      = (inr r2, w2') /\
    heap w1' !! r1 = Some out /\ heap w2' !! r2 = Some out.
Proof.
  apply (shuffle_reports_deterministic
           (world0 [["a"; "b"; "c"; "d"]])
           (@World Lcg.random {[ 1 := ["a"; "b"; "c"; "d"] ]} 2024%N None)
           0 1 ["a"; "b"; "c"; "d"] 42); reflexivity.
Defined.

(** C6.  [shuffle_reports] returns a new list that is a rearrangement of the
    list it was given; the given list, and every other list of the store, is
    as it was. *)
Theorem shuffle_reports_permutes `{R : Random} `{!RandomLaws R} (w : world)
    (l : ref) (files : list string) (s : Z) :
  heap w !! l = Some files ->
  exists r w' out,
    shuffle_reports l s w = (inr r, w') /\
    r <> l /\ heap w' !! l = Some files /\
    (forall l', l' <> r -> heap w' !! l' = heap w !! l') /\
    heap w' !! r = Some out /\ out ≡ₚ files.
Proof.
  intros Hl.
  destruct (shuffle_reports_run w l files s Hl) as (w' & Hr & _ & Hh & _).
  pose proof (fresh_ne w l files Hl) as Hne.
  exists (fresh (dom (heap w))), w', (shuffled s files).
  rewrite Hh. split; [done|]. split; [done|].
  split; [by rewrite lookup_insert_ne|].
  split; [intros l' Hl'; by rewrite lookup_insert_ne|].
  split; [by rewrite lookup_insert_eq|].
  unfold shuffled. rewrite (shuffle_order_perm (seed s) (length files)).
  by rewrite pick_all.
Qed.

Lemma shuffle_reports_permutes_witness :
  exists r w' out,
    shuffle_reports 0 7 (world0 [["a"; "b"; "c"; "d"; "e"]]) = (inr r, w') /\
    r <> 0 /\ heap w' !! 0 = Some ["a"; "b"; "c"; "d"; "e"] /\
    (forall l', l' <> r ->
       heap w' !! l' = heap (world0 [["a"; "b"; "c"; "d"; "e"]]) !! l') /\
    heap w' !! r = Some out /\ out ≡ₚ ["a"; "b"; "c"; "d"; "e"].
Proof.
  apply (shuffle_reports_permutes (world0 [["a"; "b"; "c"; "d"; "e"]]) 0
           ["a"; "b"; "c"; "d"; "e"] 7).
  reflexivity.
Defined.

(** C7.  [anonymize_reports] returns a new list with one label per element of
    the list it was given, the [i]-th label (counting from 1) being ["A-"],
    the dataset name, ["_"] and the decimal writing of [i]; for two reports and
    the dataset [DS1] these are [A-DS1_1] and [A-DS1_2]; the given list is as
    it was. *)
Theorem anonymize_reports_labels `{R : Random} (w : world) (l : ref)
    (files : list string) (dataset_name : string) :
  heap w !! l = Some files ->
  exists r w' out,
    anonymize_reports l dataset_name w = (inr r, w') /\
    heap w' !! r = Some out /\
    length out = length files /\
    (forall i, 1 <= i <= length files ->
       out !! (i - 1) =
       Some ("A-" +:+ dataset_name +:+ "_" +:+ str (Z.of_nat i))) /\
    (files = ["a"; "b"] -> dataset_name = "DS1" ->
       out = ["A-DS1_1"; "A-DS1_2"]) /\
    r <> l /\ heap w' !! l = Some files.
Proof.
  intros Hl.
  destruct (anonymize_reports_run w l files dataset_name Hl)
    as (w' & Hr & _ & Hh & _).
  pose proof (fresh_ne w l files Hl) as Hne.
  exists (fresh (dom (heap w))), w', (labels dataset_name (length files)).
  rewrite Hh. split; [done|].
  split; [by rewrite lookup_insert_eq|].
  split; [apply labels_length|].
  split; [intros i Hi; by apply labels_lookup|].
  split; [by intros -> ->|].
  split; [done | by rewrite lookup_insert_ne].
Qed.

Lemma anonymize_reports_labels_witness :
  exists r w' out,
    anonymize_reports 0 "DS1" (world0 [["a"; "b"]]) = (inr r, w') /\
    heap w' !! r = Some out /\
    length out = 2 /\
    (forall i, 1 <= i <= 2 ->
       out !! (i - 1) = Some ("A-" +:+ "DS1" +:+ "_" +:+ str (Z.of_nat i))) /\
    (["a"; "b"] = ["a"; "b"] -> "DS1" = "DS1" ->
       out = ["A-DS1_1"; "A-DS1_2"]) /\
    r <> 0 /\ heap w' !! 0 = Some ["a"; "b"].
Proof.
  apply (anonymize_reports_labels (world0 [["a"; "b"]]) 0 ["a"; "b"] "DS1").
  reflexivity.
Defined.

(** The reports drawn by [repeat_reports]: as many as asked for, each of
    them in the pool. *)
Lemma chosen_spec `{R : Random} `{!RandomLaws R} (g : gen)
    (population : list string) (k : nat) :
  k <= length population ->
  let chosen :=
    (fun i => population !!! i) <$> (sample_picks g (length population) k).1 in
  length chosen = k /\ Forall (fun x => x ∈ population) chosen.
Proof.
  intros Hk chosen. subst chosen. split.
  - rewrite length_fmap. by apply sample_picks_length.
  - apply pick_elem_of. by apply sample_picks_below.
Qed.

(** C8.  With one folder and [0 <= k <= len(lst)], [repeat_reports] returns
    a list of [len(lst) + k] elements that starts with the elements of [lst] in
    their order and ends with [k] elements that are each in [lst]. *)
Theorem repeat_reports_single `{R : Random} `{!RandomLaws R} (w : world)
    (l : ref) (files : list string) (k : Z) :
  heap w !! l = Some files -> (0 <= k <= len files)%Z ->
  exists r w' out,
    repeat_reports l k false w = (inr r, w') /\
    heap w' !! r = Some out /\
    len out = (len files + k)%Z /\
    take (length files) out = files /\
    length (drop (length files) out) = Z.to_nat k /\
    Forall (fun x => x ∈ files) (drop (length files) out).
Proof.
  intros Hl Hk.
  destruct (repeat_reports_run w l files k false Hl Hk) as (w' & Hr & Hh).
  destruct (chosen_spec (seed 764247) files (Z.to_nat k)) as [Hlen Hin].
  { unfold len in Hk. lia. }
  simpl in Hh, Hlen, Hin. eexists l, w', _.
  split; [exact Hr|]. rewrite Hh.
  split; [by rewrite lookup_insert_eq|].
  rewrite take_app_length, drop_app_length.
  split; [|done]. unfold len in *. rewrite length_app, Hlen. lia.
Qed.

Lemma repeat_reports_single_witness :
  exists r w' out,
    repeat_reports 0 2 false (world0 [["a"; "b"; "c"; "d"; "e"]]) = (inr r, w') /\
    heap w' !! r = Some out /\
    len out = (len ["a"; "b"; "c"; "d"; "e"] + 2)%Z /\
    take 5 out = ["a"; "b"; "c"; "d"; "e"] /\
    length (drop 5 out) = Z.to_nat 2 /\
    Forall (fun x => x ∈ ["a"; "b"; "c"; "d"; "e"]) (drop 5 out).
Proof.
  apply (repeat_reports_single (world0 [["a"; "b"; "c"; "d"; "e"]]) 0
           ["a"; "b"; "c"; "d"; "e"] 2).
  - reflexivity.
  - unfold len. simpl. lia.
Defined.

(** C9.  With two folders and a number [k] of repeats that does not exceed
    the number of reports whose name contains [condition1], [repeat_reports]
    returns a list of [len(lst) + 2k] elements: the elements of [lst], then
    [k] reports drawn among those of [lst] that contain [condition1], then
    each of these again with [condition1] replaced by [condition2]. *)
Theorem repeat_reports_two_folders `{R : Random} `{!RandomLaws R} (w : world)
    (l : ref) (files : list string) (k : nat) :
  heap w !! l = Some files ->
  k <= length (filter (fun s => str_in "condition1" s = true) files) ->
  exists r w' out picks1,
    repeat_reports l (Z.of_nat k) true w = (inr r, w') /\
    heap w' !! r = Some out /\
    out = files ++ picks1 ++ (replace "condition1" "condition2" <$> picks1) /\
    length out = length files + 2 * k /\
    length picks1 = k /\
    Forall (fun x => x ∈ filter (fun s => str_in "condition1" s = true) files)
           picks1.
Proof.
  intros Hl Hk.
  destruct (repeat_reports_run w l files (Z.of_nat k) true Hl) as (w' & Hr & Hh).
  { unfold len, pool. lia. }
  destruct (chosen_spec (seed 764247) (pool true files) k) as [Hlen Hin]; [done|].
  rewrite Nat2Z.id in Hh. simpl in Hh, Hlen, Hin.
  eexists l, w', _, _. split; [exact Hr|]. rewrite Hh.
  split; [by rewrite lookup_insert_eq|]. split; [reflexivity|].
  split; [|done]. rewrite !length_app, Hlen, length_fmap, Hlen. lia.
Qed.

Lemma repeat_reports_two_folders_witness :
  exists r w' out picks1,
    repeat_reports 0 (Z.of_nat 2) true (world0 [reports_two_folders])
      = (inr r, w') /\
    heap w' !! r = Some out /\
    out = reports_two_folders ++ picks1
          ++ (replace "condition1" "condition2" <$> picks1) /\
    length out = length reports_two_folders + 2 * 2 /\
    length picks1 = 2 /\
    Forall (fun x => x ∈ filter (fun s => str_in "condition1" s = true)
                           reports_two_folders)
           picks1.
Proof.
  apply (repeat_reports_two_folders (world0 [reports_two_folders]) 0
           reports_two_folders 2).
  - reflexivity.
  - vm_compute. lia.
Defined.

(** C10.  [repeat_reports] works in place: the list it returns is the very
    list it was given, which after the call has [k] elements more (or [2k]
    with two folders), the old ones first; [shuffle_reports], called on the
    same list, returns another list and leaves the given one as it was. *)
Theorem repeat_reports_in_place `{R : Random} `{!RandomLaws R} (w : world)
    (l : ref) (files : list string) (k : Z) (two_folders : bool) :
  heap w !! l = Some files ->
  (0 <= k <= len (pool two_folders files))%Z ->
  (exists w' out,
      repeat_reports l k two_folders w = (inr l, w') /\
      heap w' !! l = Some out /\
      len out = (len files + (if two_folders then 2 * k else k))%Z /\
      take (length files) out = files) /\
  (forall s, exists r w',
      shuffle_reports l s w = (inr r, w') /\
      r <> l /\ heap w' !! l = Some files).
Proof.
  intros Hl Hk. split.
  - destruct (repeat_reports_run w l files k two_folders Hl Hk) as (w' & Hr & Hh).
    destruct (chosen_spec (seed 764247) (pool two_folders files) (Z.to_nat k))
      as [Hlen _].
    { unfold len in Hk. lia. }
    simpl in Hh, Hlen. eexists w', _. split; [exact Hr|]. rewrite Hh.
    split; [by rewrite lookup_insert_eq|].
    rewrite take_app_length. split; [|done].
    unfold len. rewrite length_app.
    destruct two_folders.
    + rewrite length_app, Hlen, length_fmap, Hlen. lia.
    + rewrite Hlen. lia.
  - intros s.
    destruct (shuffle_reports_run w l files s Hl) as (w' & Hr & _ & Hh & _).
    pose proof (fresh_ne w l files Hl) as Hne.
    exists (fresh (dom (heap w))), w'. rewrite Hh.
    split; [done|]. split; [done | by rewrite lookup_insert_ne].
Qed.

Lemma repeat_reports_in_place_witness :
  (exists w' out,
      repeat_reports 0 1 true (world0 [reports_two_folders]) = (inr 0, w') /\
      heap w' !! 0 = Some out /\
      len out = (len reports_two_folders + 2 * 1)%Z /\
      take (length reports_two_folders) out = reports_two_folders) /\
  (forall s, exists r w',
      shuffle_reports 0 s (world0 [reports_two_folders]) = (inr r, w') /\
      r <> 0 /\ heap w' !! 0 = Some reports_two_folders).
Proof.
  apply (repeat_reports_in_place (world0 [reports_two_folders]) 0
           reports_two_folders 1 true).
  - reflexivity.
  - vm_compute. split; discriminate.
Defined.

(** * Further properties of the module *)

(** ** [define_order] *)

Lemma run_id_result file :
  (run_id_readable file /\
   exists z, match Re.search "run-(\w+)_" file with
             | Some run_match => int_ (Re.group1 run_match)
             | None => inr 0%Z
             end = inr z) \/
  (~ run_id_readable file /\
   match Re.search "run-(\w+)_" file with
   | Some run_match => int_ (Re.group1 run_match)
   | None => inr 0%Z
   end = inl ValueError).
Proof.
  unfold run_id_readable.
  destruct (Re.search "run-(\w+)_" file) as [rm|]; [|left; split; [done | by eexists]].
  destruct (int_ (Re.group1 rm)) as [e|z] eqn:Hi.
  - right. rewrite (int_raises_ValueError _ _ Hi) in *. split; [|done].
    intros Hr. destruct (Hr rm eq_refl) as [z Hz]. congruence.
  - left. split; [|by eexists]. intros m [= <-]. by eexists.
Qed.

(** X1.  The three outcomes of [define_order].  It returns a key exactly for
    the file names that hold a [sub-<id>_] segment and whose run id, if there
    is one, is text that [int] accepts; it raises [ValueError] exactly for
    those that hold the segment and whose run id [int] refuses. *)
Theorem define_order_outcomes (file : string) :
  (valid file <-> has_segment "sub-" Re.Word file /\ run_id_readable file) /\
  (define_order file = inl ValueError <->
   has_segment "sub-" Re.Word file /\ ~ run_id_readable file).
Proof.
  destruct (Re.search "sub-(\w+)_" file) as [m|] eqn:Hm.
  - assert (Hseg : has_segment "sub-" Re.Word file).
    { apply search_sub_segment. by rewrite Hm. }
    unfold valid. rewrite (define_order_found file m Hm).
    destruct (run_id_result file) as [[Hr [z ->]]|[Hr ->]]; simpl.
    + split; split; try done. by eexists. intros [_ ?]. done.
    + split; split; try done.
      * by intros [k ?].
      * by intros [_ ?].
  - assert (Hseg : ~ has_segment "sub-" Re.Word file).
    { rewrite <- search_sub_segment, Hm. by intros [? ?]. }
    unfold valid, define_order. rewrite Hm. split; split; try done.
    + by intros [k ?].
    + by intros [? _].
    + by intros [? _].
Qed.

Lemma int_digits_nonneg s : forall acc after z,
  (0 <= acc)%Z -> int_digits acc after s = Some z -> (0 <= z)%Z.
Proof.
  induction s as [|a s IH]; intros acc after z Hacc; simpl.
  - destruct after; [by intros [= <-] | done].
  - destruct (Re.is_digit a).
    + apply IH. unfold digit_val. lia.
    + destruct (Ascii.eqb a "_"); [|done]. destruct after; [by apply IH | done].
Qed.

Lemma int_nonneg s z : int_ s = inr z -> (0 <= z)%Z.
Proof.
  unfold int_. destruct (int_digits 0 false s) as [z'|] eqn:Hd; [|done].
  intros [= <-]. by eapply int_digits_nonneg.
Qed.

Lemma decimal_from_nonneg g : forall acc,
  (0 <= acc)%Z -> (0 <= decimal_from acc g)%Z.
Proof.
  induction g as [|a g IH]; intros acc Hacc; simpl; [done|].
  apply IH. unfold digit_val. lia.
Qed.

Lemma decimal_value_nonneg g : (0 <= decimal_value g)%Z.
Proof. by apply decimal_from_nonneg. Qed.

Lemma first_matching_range patterns file : forall i,
  let r := first_matching i patterns file (i + len patterns) in
  (i <= r <= i + len patterns)%Z.
Proof.
  induction patterns as [|p ps IH]; intros i; simpl.
  - unfold len. simpl. lia.
  - unfold len in *. simpl length.
    destruct (Re.search p file); [lia|].
    specialize (IH (i + 1)%Z). simpl in IH.
    replace (i + Z.of_nat (S (length ps)))%Z
      with (i + 1 + Z.of_nat (length ps))%Z by lia.
    lia.
Qed.

Lemma session_rule_range file :
  let '(t, n) := session_rule file in
  (1 <= t <= 4 /\ 0 <= n /\ (t = 4 -> n = 0))%Z.
Proof.
  unfold session_rule.
  repeat match goal with
         | |- context [Re.search ?p file] => destruct (Re.search p file)
         end;
    (split; [lia | split; [first [apply decimal_value_nonneg | lia] | lia]]).
Qed.

(** X2.  The ranges of a key.  The subject id is a non-empty run of word
    characters; the modality priority is an index of [MODALITY_ORDER] or its
    length; the session type priority is 1 to 4; the session number and the run
    id are never negative, and the session number is 0 for priority 4. *)
Theorem define_order_key_ranges (file subject_id : string) (m t n r : Z) :
  define_order file = inr (subject_id, m, t, n, r) ->
  subject_id <> EmptyString /\ all_accept Re.Word subject_id = true /\
  (0 <= m <= len MODALITY_ORDER)%Z /\ (1 <= t <= 4)%Z /\
  (0 <= n)%Z /\ (t = 4 -> n = 0)%Z /\ (0 <= r)%Z.
Proof.
  intros Hk.
  destruct (Re.search "sub-(\w+)_" file) as [sm|] eqn:Hm;
    [|unfold define_order in Hk; by rewrite Hm in Hk].
  rewrite (define_order_found file sm Hm) in Hk.
  destruct (match Re.search "run-(\w+)_" file with
            | Some run_match => int_ (Re.group1 run_match)
            | None => inr 0%Z
            end) as [e|z] eqn:Hrun; simpl in Hk; [done|].
  injection Hk as <- <- <- <- <-.
  destruct (search_tagged_Some "sub-(\w+)_" "sub-" Re.Word file sm eq_refl Hm)
    as (before & after & _ & Hne & Hall).
  pose proof (session_rule_range file) as Hses.
  destruct (session_rule file) as [t n]. simpl in Hses |- *.
  assert (Hz : (0 <= z)%Z).
  { destruct (Re.search "run-(\w+)_" file).
    - by eapply int_nonneg.
    - injection Hrun as <-. lia. }
  pose proof (first_matching_range MODALITY_ORDER file 0) as Hmod.
  cbv zeta in Hmod. rewrite Z.add_0_l in Hmod.
  unfold modality_priority_of. repeat split; try done; lia.
Qed.

Lemma define_order_key_ranges_witness :
  "01" <> EmptyString /\ all_accept Re.Word "01" = true /\
  (0 <= 2 <= len MODALITY_ORDER)%Z /\ (1 <= 3 <= 4)%Z /\
  (0 <= 2)%Z /\ (3 = 4 -> 2 = 0)%Z /\ (0 <= 3)%Z.
Proof.
  apply (define_order_key_ranges "sub-01_ses-02_task-bht_run-03_bold.html").
  vm_compute. reflexivity.
Defined.

Lemma first_matching_first patterns file : forall i k,
  k <= length patterns ->
  first_matching i patterns file (i + len patterns) = (i + Z.of_nat k)%Z <->
  (forall q, patterns !! k = Some q -> is_Some (Re.search q file)) /\
  (forall j q, j < k -> patterns !! j = Some q -> Re.search q file = None).
Proof.
  induction patterns as [|p ps IH]; intros i k Hk.
  - simpl in Hk. assert (k = 0) as -> by lia. unfold len. simpl.
    split; [|done]. intros _. split; [by intros ? ? | intros; lia].
  - pose proof (first_matching_range ps file (i + 1)) as Hrange.
    cbv zeta in Hrange. simpl.
    replace (i + len (p :: ps))%Z with (i + 1 + len ps)%Z
      by (unfold len; simpl length; lia).
    destruct k as [|k].
    + destruct (Re.search p file) as [m|] eqn:Hp.
      * split; [|intros; lia]. intros _. split; [|intros; lia].
        intros q [= <-]. by rewrite Hp.
      * split; [lia|]. intros [Hq _]. destruct (Hq p eq_refl) as [? ?].
        congruence.
    + simpl in Hk. destruct (Re.search p file) as [m|] eqn:Hp.
      * split; [lia|]. intros [_ Hq].
        rewrite (Hq 0 p ltac:(lia) eq_refl) in Hp. done.
      * replace (i + Z.of_nat (S k))%Z with (i + 1 + Z.of_nat k)%Z by lia.
        rewrite (IH (i + 1)%Z k ltac:(lia)). simpl. split.
        -- intros [H1 H2]. split; [done|]. intros [|j] q Hj Hq.
           ++ by injection Hq as <-.
           ++ apply (H2 j q); [lia | done].
        -- intros [H1 H2]. split; [done|]. intros j q Hj Hq.
           apply (H2 (S j) q); [lia | done].
Qed.

(** X3.  The modality priority is the position of the first pattern of
    [MODALITY_ORDER] that matches the file name, and the length of the list
    when none matches: it is [k] exactly when the patterns before position [k]
    do not match and the pattern at position [k], if there is one, does. *)
Theorem modality_priority_first_match (file : string) (k : nat) :
  k <= length MODALITY_ORDER ->
  modality_priority_of file = Z.of_nat k <->
  (forall q, MODALITY_ORDER !! k = Some q -> is_Some (Re.search q file)) /\
  (forall j q, j < k -> MODALITY_ORDER !! j = Some q -> Re.search q file = None).
Proof.
  intros Hk. unfold modality_priority_of.
  apply (first_matching_first MODALITY_ORDER file 0 k Hk).
Qed.

Lemma modality_priority_first_match_witness :
  modality_priority_of "sub-01_task-bht_run-1_bold.html" = Z.of_nat 2 <->
  (forall q, MODALITY_ORDER !! 2 = Some q ->
     is_Some (Re.search q "sub-01_task-bht_run-1_bold.html")) /\
  (forall j q, j < 2 -> MODALITY_ORDER !! j = Some q ->
     Re.search q "sub-01_task-bht_run-1_bold.html" = None).
Proof.
  apply (modality_priority_first_match "sub-01_task-bht_run-1_bold.html" 2).
  simpl. lia.
Defined.

Lemma scan_past p a s :
  Re.match_here p (String a s) = None -> Re.scan p (String a s) = Re.scan p s.
Proof. intros Hm. simpl. by rewrite Hm. Qed.

Ltac scan_folder :=
  unfold Re.search;
  match goal with
  | |- context [Re.compile ?pat] =>
      let p := eval vm_compute in (Re.compile pat) in
      change (Re.compile pat) with p
  end;
  cbn [String.append];
  repeat (rewrite scan_past by (vm_compute; reflexivity));
  exact eq_refl.

Lemma search_in_folder file pattern :
  pattern ∈ ["sub-(\w+)_"; "run-(\w+)_"; "ses-excl(\d+)_"; "ses-pilot(\d+)_";
             "ses-(\d+)_"] ++ MODALITY_ORDER ->
  Re.search pattern ("/condition1/" +:+ file) = Re.search pattern file /\
  Re.search pattern ("/condition2/" +:+ file) = Re.search pattern file.
Proof.
  intros Hin. unfold MODALITY_ORDER in Hin. simpl in Hin.
  repeat (apply elem_of_cons in Hin as [->|Hin]; [split; scan_folder|]).
  by apply elem_of_nil in Hin.
Qed.

Ltac pattern_of_module :=
  unfold MODALITY_ORDER; cbn [app];
  repeat first [apply list_elem_of_here | apply list_elem_of_further].

Lemma key_in_folder (file : string) :
  define_order ("/condition1/" +:+ file) = define_order file /\
  define_order ("/condition2/" +:+ file) = define_order file.
Proof.
  pose proof (fun p H => proj1 (search_in_folder file p H)) as H1.
  pose proof (fun p H => proj2 (search_in_folder file p H)) as H2.
  unfold define_order, modality_priority_of, MODALITY_ORDER, first_matching.
  split.
  - rewrite (H1 "sub-(\w+)_"), (H1 "run-(\w+)_"), (H1 "ses-excl(\d+)_"),
      (H1 "ses-pilot(\d+)_"), (H1 "ses-(\d+)_"), (H1 "_T1w"),
      (H1 "task-qct.*_bold"), (H1 "task-bht.*_bold"),
      (H1 "task_rest.*_bold"), (H1 "_T2w") by pattern_of_module.
    exact eq_refl.
  - rewrite (H2 "sub-(\w+)_"), (H2 "run-(\w+)_"), (H2 "ses-excl(\d+)_"),
      (H2 "ses-pilot(\d+)_"), (H2 "ses-(\d+)_"), (H2 "_T1w"),
      (H2 "task-qct.*_bold"), (H2 "task-bht.*_bold"),
      (H2 "task_rest.*_bold"), (H2 "_T2w") by pattern_of_module.
    exact eq_refl.
Qed.

(** X4.  The folder of the two-folder listing does not enter the key: a name
    prefixed with [/condition1/] or [/condition2/] gets the key (or the
    exception) of the bare name, so that the two folders are ordered alike. *)
Theorem define_order_in_folder (file : string) :
  define_order ("/condition1/" +:+ file) = define_order file /\
  define_order ("/condition2/" +:+ file) = define_order file.
Proof. exact (key_in_folder file). Qed.

(** X5.  For a file name of the naming convention (in a folder whose name
    has no [s]: the tag [sub-], a label of word characters, an underscore,
    then a word without underscore up to a hyphen, a dot or the end), the
    subject id of the key is the label. *)
Theorem define_order_subject_label (folder id u tail : string) (k : key) :
  without "s" folder = true ->
  id <> EmptyString -> all_accept Re.Word id = true ->
  all_accept Re.Word u = true -> without "_" u = true -> ends_word tail = true ->
  define_order (folder +:+ "sub-" +:+ id +:+ "_" +:+ u +:+ tail) = inr k ->
  k.1.1.1.1 = id.
Proof.
  intros Hf Hne Hid Hw Hu Ht Hk.
  pose proof (subject_id_of_label folder id u tail Hf Hne Hid Hw Hu Ht) as Hs.
  destruct (define_order_key _ k Hk) as (sid & t & n & r & Hsid & ->).
  rewrite Hs in Hsid. by injection Hsid as <-.
Qed.

Lemma define_order_subject_label_witness :
  ("01", 2, 3, 2, 3)%Z.1.1.1.1 = "01".
Proof.
  apply (define_order_subject_label "/condition1/" "01" "ses"
           "-02_task-bht_run-03_bold.html");
    first [reflexivity | discriminate | (vm_compute; reflexivity)].
Defined.

(** ** Sorting the listing *)

Lemma rmap_valid (l : list string) :
  Forall valid l -> rmap define_order l = inr (map key_of l).
Proof.
  induction 1 as [|f l [k Hk] _ IH]; simpl; [done|].
  rewrite Hk, IH. simpl. unfold key_of. by rewrite Hk.
Qed.

Lemma combine_decorate (l : list string) :
  combine (map key_of l) l = map decorate l.
Proof. induction l as [|f l IH]; simpl; [done | by rewrite IH]. Qed.

(** Sorting valid file names is sorting them with their keys before them. *)
Lemma sort_reports_decorate (l : list string) :
  Forall valid l ->
  sort_reports l = inr (map snd (stable_sort key_lt (map decorate l))).
Proof.
  intros Hv. unfold sort_reports, sort_by_key.
  rewrite (rmap_valid l Hv). simpl. by rewrite combine_decorate.
Qed.

Lemma rmap_all_inr {A B} (f : A -> result B) (l : list A) bs :
  rmap f l = inr bs -> Forall (fun a => exists b, f a = inr b) l.
Proof.
  revert bs; induction l as [|a l IH]; intros bs Hr; [constructor|].
  simpl in Hr. destruct (f a) as [e|b] eqn:Hb; [done|]. simpl in Hr.
  destruct (rmap f l) as [e|bs'] eqn:Hbs; [done|].
  constructor; [by exists b | by eapply IH].
Qed.

Lemma sort_reports_valid (l out : list string) :
  sort_reports l = inr out -> Forall valid l.
Proof.
  unfold sort_reports, sort_by_key. intros Hs.
  destruct (rmap define_order l) as [e|ks] eqn:Hks; [done|].
  by eapply rmap_all_inr.
Qed.

Lemma decorated_sorted (l : list string) :
  let d := stable_sort key_lt (map decorate l) in
  StronglySorted (fun x y => key_le (fst x) (fst y)) d /\
  Forall (fun p => fst p = key_of (snd p)) d /\ d ≡ₚ map decorate l.
Proof.
  intros d. split; [|split].
  - apply stable_sort_sorted; [exact key_lt_asym|].
    intros a b c. exact (key_le_trans a b c).
  - unfold d. rewrite stable_sort_perm. apply Forall_fmap. by apply Forall_true.
  - apply stable_sort_perm.
Qed.

(** X6.  The sorted listing is in the order of the whole key: the key of a
    report is never below the key of a report before it.  So among the reports
    of one subject and one modality the session type priorities never
    decrease, for one type the session numbers never decrease, and for one
    session the run ids never decrease. *)
Theorem sort_reports_key_order (l out : list string) (i j : nat)
    (fi fj : string) (s1 s2 : string) (m1 t1 n1 r1 m2 t2 n2 r2 : Z) :
  sort_reports l = inr out -> i <= j ->
  out !! i = Some fi -> out !! j = Some fj ->
  define_order fi = inr (s1, m1, t1, n1, r1) ->
  define_order fj = inr (s2, m2, t2, n2, r2) ->
  key_lt (s2, m2, t2, n2, r2) (s1, m1, t1, n1, r1) = false /\
  (s1 = s2 -> m1 = m2 ->
   (t1 <= t2)%Z /\ (t1 = t2 -> (n1 <= n2)%Z /\ (n1 = n2 -> (r1 <= r2)%Z))).
Proof.
  intros Hs Hij Hi Hj Hki Hkj.
  pose proof (sort_reports_valid l out Hs) as Hv.
  rewrite (sort_reports_decorate l Hv) in Hs. injection Hs as <-.
  destruct (decorated_sorted l) as (Hsorted & Hkeys & _).
  set (d := stable_sort key_lt (map decorate l)) in *.
  rewrite list_lookup_fmap in Hi, Hj.
  destruct (d !! i) as [[ki fi']|] eqn:Hdi; [|done].
  destruct (d !! j) as [[kj fj']|] eqn:Hdj; [|done].
  simpl in Hi, Hj. injection Hi as ->. injection Hj as ->.
  rewrite Forall_forall in Hkeys.
  pose proof (Hkeys _ (list_elem_of_lookup_2 _ _ _ Hdi)) as Hei.
  pose proof (Hkeys _ (list_elem_of_lookup_2 _ _ _ Hdj)) as Hej.
  simpl in Hei, Hej. unfold key_of in Hei, Hej. rewrite Hki in Hei.
  rewrite Hkj in Hej. subst ki kj.
  assert (Hle : key_le (s1, m1, t1, n1, r1) (s2, m2, t2, n2, r2)).
  { destruct (decide (i = j)) as [->|Hne].
    - rewrite Hdi in Hdj. injection Hdj as -> -> -> -> -> _. apply key_le_refl.
    - apply (StronglySorted_lookup _ d i j _ _ Hsorted ltac:(lia) Hdi Hdj). }
  split; [exact Hle|]. intros -> ->.
  apply key_le_cases in Hle as [[Hne _]|[_ Hnum]]; [done|].
  revert Hnum. unfold numbers_lt.
  repeat match goal with
         | |- context [Z.eqb ?a ?b] => destruct (Z.eqb_spec a b); subst
         end; simpl; lia.
Qed.

Lemma sort_reports_key_order_witness :
  key_lt ("01", 0, 3, 2, 0)%Z ("01", 0, 1, 1, 0)%Z = false /\
  ("01" = "01" -> 0 = 0 ->
   (1 <= 3)%Z /\ (1 = 3 -> (1 <= 2)%Z /\ (1 = 2 -> (0 <= 0)%Z)))%Z.
Proof.
  apply (sort_reports_key_order
           ["sub-01_ses-02_T1w.html"; "sub-01_ses-excl01_T1w.html";
            "sub-01_ses-pilot03_T1w.html"]
           ["sub-01_ses-excl01_T1w.html"; "sub-01_ses-pilot03_T1w.html";
            "sub-01_ses-02_T1w.html"]
           0 2 "sub-01_ses-excl01_T1w.html" "sub-01_ses-02_T1w.html");
    first [lia | (vm_compute; reflexivity)].
Defined.

Section SortMore.
Context {K A : Type} (lt : K -> K -> bool).

Let le (x y : K * A) : Prop := lt (fst y) (fst x) = false.

Hypothesis lt_asym : forall a b, lt a b = true -> lt b a = false.
Hypothesis le_trans : forall a b c,
  lt b a = false -> lt c b = false -> lt c a = false.

Lemma insert_stable_first (x : K * A) l :
  Forall (fun z => lt (fst x) (fst z) = true) l ->
  insert_stable lt x l = x :: l.
Proof. intros Hl. destruct Hl as [|z l Hz _]; simpl; [done | by rewrite Hz]. Qed.

Lemma insert_stable_last (x : K * A) l :
  Forall (fun z => le z x) l -> insert_stable lt x l = l ++ [x].
Proof.
  induction 1 as [|z l Hz _ IH]; simpl; [done|].
  unfold le in Hz. by rewrite Hz, IH.
Qed.

Lemma insert_stable_filter (P : K * A -> bool) (x : K * A) l :
  StronglySorted le l ->
  List.filter P (insert_stable lt x l) =
  if P x then insert_stable lt x (List.filter P l) else List.filter P l.
Proof.
  induction 1 as [|y l Hs IH Hy].
  - simpl. by destruct (P x).
  - cbn [insert_stable]. destruct (lt (fst x) (fst y)) eqn:Hxy.
    + change (List.filter P (x :: y :: l))
        with (if P x then x :: List.filter P (y :: l)
              else List.filter P (y :: l)).
      destruct (P x) eqn:Px; [|done].
      assert (Hall : Forall (fun z => lt (fst x) (fst z) = true) (y :: l)).
      { constructor; [done|]. eapply Forall_impl; [exact Hy|].
        intros z Hz. unfold le in Hz.
        destruct (lt (fst x) (fst z)) eqn:Hxz; [done|].
        by rewrite (le_trans _ _ _ Hz Hxz) in Hxy. }
      symmetry. apply insert_stable_first.
      apply Forall_forall. intros z Hz. rewrite Forall_forall in Hall.
      apply Hall. apply list_elem_of_In in Hz. apply list_elem_of_In.
      apply List.filter_In in Hz. exact (proj1 Hz).
    + simpl. rewrite IH.
      destruct (P y), (P x); simpl; by rewrite ?Hxy.
Qed.

Lemma stable_sort_from_filter (P : K * A -> bool) l : forall acc,
  StronglySorted le acc ->
  List.filter P (fold_left (fun sorted x => insert_stable lt x sorted) l acc) =
  fold_left (fun sorted x => insert_stable lt x sorted)
    (List.filter P l) (List.filter P acc).
Proof.
  induction l as [|x l IH]; intros acc Hacc; simpl; [done|].
  rewrite IH by (by apply insert_stable_sorted).
  rewrite insert_stable_filter by done. by destruct (P x).
Qed.

(** A stable sort commutes with leaving elements out. *)
Lemma stable_sort_filter (P : K * A -> bool) l :
  List.filter P (stable_sort lt l) = stable_sort lt (List.filter P l).
Proof. apply (stable_sort_from_filter P l []). constructor. Qed.

Lemma sorted_app_le (acc : list (K * A)) x l :
  StronglySorted le (acc ++ x :: l) -> Forall (fun z => le z x) acc.
Proof.
  induction acc as [|a acc IH]; simpl; [constructor|].
  intros Hs. apply StronglySorted_inv in Hs as [Hs Ha].
  constructor; [|by apply IH].
  rewrite Forall_forall in Ha. apply Ha. apply elem_of_app. right. left.
Qed.

Lemma stable_sort_from_sorted_id l : forall acc,
  StronglySorted le (acc ++ l) ->
  fold_left (fun sorted x => insert_stable lt x sorted) l acc = acc ++ l.
Proof.
  induction l as [|x l IH]; intros acc Hs; simpl; [by rewrite app_nil_r|].
  rewrite (insert_stable_last x acc) by (by eapply sorted_app_le).
  rewrite IH; rewrite <- app_assoc; done.
Qed.

(** Sorting what is in order changes nothing. *)
Lemma stable_sort_sorted_id (l : list (K * A)) :
  StronglySorted le l -> stable_sort lt l = l.
Proof. intros Hs. by apply (stable_sort_from_sorted_id l []). Qed.
End SortMore.

Lemma filter_map_comm {A B} (P : B -> bool) (f : A -> B) (l : list A) :
  List.filter P (map f l) = map f (List.filter (fun a => P (f a)) l).
Proof.
  induction l as [|a l IH]; simpl; [done|].
  rewrite IH. by destruct (P (f a)).
Qed.

Lemma Forall_filter_valid (P : string -> bool) (l : list string) :
  Forall valid l -> Forall valid (List.filter P l).
Proof.
  intros Hv. apply Forall_forall. intros f Hf. rewrite Forall_forall in Hv.
  apply Hv. apply list_elem_of_In in Hf. apply list_elem_of_In.
  apply List.filter_In in Hf. exact (proj1 Hf).
Qed.

(** The sorted sub-listing is the sub-listing of the sorted listing, here with
    the keys before the names. *)
Lemma decorated_filter (P : string -> bool) (l : list string) :
  List.filter P (map snd (stable_sort key_lt (map decorate l))) =
  map snd (stable_sort key_lt (map decorate (List.filter P l))).
Proof.
  rewrite filter_map_comm. f_equal.
  rewrite (stable_sort_filter key_lt key_lt_asym
             (fun a b c => key_le_trans a b c)).
  f_equal. apply (filter_map_comm (fun p => P (snd p)) decorate l).
Qed.

Lemma sort_filter_comm (P : string -> bool) (l out : list string) :
  sort_reports l = inr out ->
  sort_reports (List.filter P l) = inr (List.filter P out).
Proof.
  intros Hs. pose proof (sort_reports_valid l out Hs) as Hv.
  rewrite (sort_reports_decorate l Hv) in Hs. injection Hs as <-.
  rewrite (sort_reports_decorate _ (Forall_filter_valid P l Hv)).
  by rewrite decorated_filter.
Qed.

(** X7.  Leaving reports out of the listing and sorting commute: the sorted
    listing of the reports that pass a test is the sorted whole listing with
    the other reports left out.  The relative order of two reports does not
    depend on which other reports are listed. *)
Theorem sort_reports_sublisting (P : string -> bool) (l out : list string) :
  sort_reports l = inr out ->
  sort_reports (List.filter P l) = inr (List.filter P out).
Proof. exact (sort_filter_comm P l out). Qed.

Lemma sort_reports_sublisting_witness :
  sort_reports (List.filter (str_in "T1w")
                  ["sub-02_T1w.html"; "sub-01_T2w.html"; "sub-01_T1w.html"])
  = inr (List.filter (str_in "T1w")
           ["sub-01_T1w.html"; "sub-01_T2w.html"; "sub-02_T1w.html"]).
Proof.
  apply sort_reports_sublisting. vm_compute. reflexivity.
Defined.

Lemma decorate_same_key_sorted (k : key) (l : list string) :
  Forall (fun f => key_of f = k) l ->
  StronglySorted (fun x y : key * string => key_lt (fst y) (fst x) = false)
    (map decorate l).
Proof.
  induction 1 as [|f l Hf Hl IH]; simpl; constructor; [done|].
  apply Forall_fmap. eapply Forall_impl; [exact Hl|].
  intros g Hg. simpl. rewrite Hf, Hg. apply key_le_refl.
Qed.

Lemma map_snd_decorate (l : list string) : map snd (map decorate l) = l.
Proof. induction l as [|f l IH]; simpl; [done | by rewrite IH]. Qed.

(** X8.  The sort is stable: the reports that have one and the same key
    come out in the order in which the listing had them. *)
Theorem sort_reports_stable (k : key) (l out : list string) :
  sort_reports l = inr out ->
  List.filter (has_key k) out = List.filter (has_key k) l.
Proof.
  intros Hs. pose proof (sort_reports_valid l out Hs) as Hv.
  rewrite (sort_reports_decorate l Hv) in Hs. injection Hs as <-.
  rewrite decorated_filter.
  rewrite (stable_sort_sorted_id key_lt).
  - apply map_snd_decorate.
  - apply (decorate_same_key_sorted k). apply Forall_forall. intros f Hf.
    apply list_elem_of_In, List.filter_In in Hf as [_ Hf].
    unfold has_key in Hf. apply bool_decide_eq_true in Hf.
    unfold key_of. by rewrite Hf.
Qed.

Lemma sort_reports_stable_witness :
  List.filter (has_key ("01", 0, 4, 0, 0)%Z)
    ["/condition1/sub-01_T1w.html"; "/condition2/sub-01_T1w.html";
     "/condition2/sub-02_T1w.html"; "/condition1/sub-02_T1w.html"]
  = List.filter (has_key ("01", 0, 4, 0, 0)%Z)
      ["/condition2/sub-02_T1w.html"; "/condition1/sub-01_T1w.html";
       "/condition1/sub-02_T1w.html"; "/condition2/sub-01_T1w.html"].
Proof.
  apply sort_reports_stable. vm_compute. reflexivity.
Defined.

Lemma map_decorate_snd (d : list (key * string)) :
  Forall (fun p => fst p = key_of (snd p)) d -> map decorate (map snd d) = d.
Proof.
  induction 1 as [|[k f] d Hp _ IH]; simpl; [done|].
  simpl in Hp. unfold decorate at 1. by rewrite IH, <- Hp.
Qed.

(** X9.  Sorting is idempotent: the sorted listing, sorted again, is itself. *)
Theorem sort_reports_idempotent (l out : list string) :
  sort_reports l = inr out -> sort_reports out = inr out.
Proof.
  intros Hs. pose proof (sort_reports_valid l out Hs) as Hv.
  rewrite (sort_reports_decorate l Hv) in Hs. injection Hs as <-.
  destruct (decorated_sorted l) as (Hsorted & Hkeys & Hperm).
  set (d := stable_sort key_lt (map decorate l)) in *.
  assert (Hvd : Forall valid (map snd d)).
  { rewrite Hperm, map_snd_decorate. exact Hv. }
  rewrite (sort_reports_decorate _ Hvd), (map_decorate_snd d Hkeys).
  by rewrite (stable_sort_sorted_id key_lt d Hsorted).
Qed.

Lemma sort_reports_idempotent_witness :
  sort_reports ["sub-01_ses-excl01_T1w.html"; "sub-01_ses-pilot03_T1w.html";
                "sub-01_ses-02_T1w.html"]
  = inr ["sub-01_ses-excl01_T1w.html"; "sub-01_ses-pilot03_T1w.html";
         "sub-01_ses-02_T1w.html"].
Proof.
  apply (sort_reports_idempotent
           ["sub-01_ses-02_T1w.html"; "sub-01_ses-excl01_T1w.html";
            "sub-01_ses-pilot03_T1w.html"]).
  vm_compute. reflexivity.
Defined.

Lemma rmap_inl_first {A B} (f : A -> result B) (l : list A) e :
  rmap f l = inl e <->
  exists l1 a l2, l = l1 ++ a :: l2 /\
    Forall (fun x => exists b, f x = inr b) l1 /\ f a = inl e.
Proof.
  induction l as [|x l IH]; simpl.
  - split; [done|]. intros (l1 & a & l2 & Hl & _). by destruct l1.
  - destruct (f x) as [e1|b] eqn:Hx; simpl.
    + split.
      * intros [= <-]. exists [], x, l. by repeat split.
      * intros (l1 & a & l2 & Hl & Hv & Ha). destruct l1 as [|y l1].
        -- injection Hl as <- _. congruence.
        -- injection Hl as <- _. apply Forall_cons in Hv as [[b Hb] _].
           congruence.
    + destruct (rmap f l) as [e2|bs] eqn:Hr; simpl.
      * split.
        -- intros [= <-]. destruct (proj1 IH eq_refl) as (l1 & a & l2 & -> & Hv & Ha).
           exists (x :: l1), a, l2. repeat split; [|done].
           constructor; [by exists b | done].
        -- intros (l1 & a & l2 & Hl & Hv & Ha). destruct l1 as [|y l1].
           ++ injection Hl as <- _. congruence.
           ++ injection Hl as <- ->. apply Forall_cons in Hv as [_ Hv].
              f_equal. assert (inl e2 = inl e :> result (list B)) as [= ->]; [|done].
              apply IH. by exists l1, a, l2.
      * split; [done|]. intros (l1 & a & l2 & Hl & Hv & Ha).
        destruct l1 as [|y l1].
        -- injection Hl as <- _. congruence.
        -- injection Hl as <- ->. apply Forall_cons in Hv as [_ Hv].
           assert (inr bs = inl e :> result (list B)); [|done].
           apply IH. by exists l1, a, l2.
Qed.

(** X10.  Sorting raises exactly when a file name of the listing is not
    valid, and the exception is that of the first such name in the listing:
    the keys are computed from left to right and nothing catches what
    [define_order] raises. *)
Theorem sort_reports_first_exception (l : list string) (e : exn) :
  sort_reports l = inl e <->
  exists l1 file l2,
    l = l1 ++ file :: l2 /\ Forall valid l1 /\ define_order file = inl e.
Proof.
  rewrite <- (rmap_inl_first define_order l e).
  unfold sort_reports, sort_by_key.
  destruct (rmap define_order l) as [e1|ks]; simpl.
  - split; intros [= ->]; done.
  - split; done.
Qed.

Section SortPayload.
Context {K A B : Type} (lt : K -> K -> bool) (g : A -> B).




End SortPayload.






(** ** The three list functions and the world *)

Lemma to_int_not_nil z : Z.to_int z <> Decimal.Pos Decimal.Nil /\
                         Z.to_int z <> Decimal.Neg Decimal.Nil.
Proof.
  split; intros H; pose proof (f_equal Z.of_int H) as H';
    rewrite DecimalZ.of_to in H'; simpl in H'; subst z;
    vm_compute in H; discriminate H.
Qed.

Lemma str_inj a b : str a = str b -> a = b.
Proof.
  unfold str. intros H. apply DecimalZ.to_int_inj.
  destruct (to_int_not_nil a) as [Ha1 Ha2], (to_int_not_nil b) as [Hb1 Hb2].
  pose proof (NilZero.isi _ Ha1 Ha2) as Ia.
  pose proof (NilZero.isi _ Hb1 Hb2) as Ib.
  rewrite H in Ia. rewrite Ia in Ib. by injection Ib.
Qed.

Lemma labels_NoDup dataset_name n : NoDup (labels dataset_name n).
Proof.
  unfold labels, range1. apply NoDup_fmap_2.
  - intros a b Hab.
    apply (inj (String.append "A-")), (inj (String.append dataset_name)),
      (inj (String.append "_")) in Hab.
    by apply str_inj.
  - apply NoDup_fmap_2; [exact Nat2Z.inj | apply NoDup_seq].
Qed.

Section WorldFacts.
Context {R : Random}.

(** X12.  The labels of [anonymize_reports] are pairwise different: a label
    stands for one position of the list only. *)
Theorem anonymize_reports_distinct (w : world) (l : ref)
    (files : list string) (dataset_name : string) :
  heap w !! l = Some files ->
  exists r w' out,
    anonymize_reports l dataset_name w = (inr r, w') /\
    heap w' !! r = Some out /\ NoDup out.
Proof.
  intros Hl.
  destruct (anonymize_reports_run w l files dataset_name Hl)
    as (w' & Hr & _ & Hh & _).
  eexists _, w', _. split; [exact Hr|]. rewrite Hh, lookup_insert_eq.
  split; [done | apply labels_NoDup].
Qed.

(** X13.  The labels tell nothing of the reports: called on two lists of the
    same length, in whatever worlds, [anonymize_reports] returns the same
    labels; and it leaves the generator and [demo.txt] as they were. *)
Theorem anonymize_reports_blind (w1 w2 : world) (l1 l2 : ref)
    (files1 files2 : list string) (dataset_name : string) :
  heap w1 !! l1 = Some files1 -> heap w2 !! l2 = Some files2 ->
  length files1 = length files2 ->
  exists r1 w1' r2 w2' out,
    anonymize_reports l1 dataset_name w1 = (inr r1, w1') /\
    anonymize_reports l2 dataset_name w2 = (inr r2, w2') /\
    heap w1' !! r1 = Some out /\ heap w2' !! r2 = Some out /\
    rng w1' = rng w1 /\ demo_txt w1' = demo_txt w1.
Proof.
  intros H1 H2 Hlen.
  destruct (anonymize_reports_run w1 l1 files1 dataset_name H1)
    as (w1' & Hr1 & _ & Hh1 & Hg1 & Hd1).
  destruct (anonymize_reports_run w2 l2 files2 dataset_name H2)
    as (w2' & Hr2 & _ & Hh2 & _).
  eexists _, w1', _, w2', _. split; [exact Hr1|]. split; [exact Hr2|].
  rewrite Hh1, Hh2, !lookup_insert_eq, Hlen. done.
Qed.

(** What a call of [repeat_reports] leaves behind, in full. *)
Lemma repeat_reports_world (w : world) l files k two_folders :
  heap w !! l = Some files ->
  repeat_reports l k two_folders w =
  let population := pool two_folders files in
  let demo := if two_folders then Some (files, population) else demo_txt w in
  if ((0 <=? k)%Z && (k <=? len population)%Z)%bool then
    let picks := sample_picks (seed 764247) (length population) (Z.to_nat k) in
    let chosen := (fun i => population !!! i) <$> picks.1 in
    (inr l,
     World (<[l := files ++
                   (if two_folders
                    then chosen ++ (replace "condition1" "condition2" <$> chosen)
                    else chosen)]> (heap w))
           picks.2 demo)
  else (inl ValueError, World (heap w) (seed 764247) demo).
Proof.
  intros Hl.
  assert (Hread : heap w !!! l = files) by by apply lookup_total_correct.
  unfold repeat_reports, bind, random_seed, elements, random_sample,
    write_demo, list_extend, ret.
  change (220830 + 543417)%Z with 764247%Z.
  destruct two_folders; cbn [heap rng demo_txt pool] in *; rewrite !Hread;
    destruct ((0 <=? k)%Z && (k <=? len _)%Z)%bool; try reflexivity;
    destruct (sample_picks (seed 764247) _ (Z.to_nat k)) as [picks g];
    cbn [heap rng demo_txt fst snd]; rewrite ?Hread; reflexivity.
Qed.

(** X14.  Asked for a negative number of repeats, or for more than the pool
    holds, [repeat_reports] raises [ValueError] and leaves every list as it
    was; the generator has been reseeded all the same, and with two folders
    [demo.txt] has been written. *)
Theorem repeat_reports_out_of_range (w : world) (l : ref)
    (files : list string) (k : Z) (two_folders : bool) :
  heap w !! l = Some files ->
  (k < 0 \/ len (pool two_folders files) < k)%Z ->
  exists w',
    repeat_reports l k two_folders w = (inl ValueError, w') /\
    heap w' = heap w /\ rng w' = seed 764247 /\
    demo_txt w' =
      if two_folders then Some (files, pool true files) else demo_txt w.
Proof.
  intros Hl Hk. rewrite (repeat_reports_world w l files k two_folders Hl).
  cbv zeta.
  assert (Hout : ((0 <=? k)%Z && (k <=? len (pool two_folders files))%Z)%bool = false).
  { apply andb_false_iff. rewrite !Z.leb_gt. lia. }
  rewrite Hout. eexists. split; [reflexivity|]. by destruct two_folders.
Qed.

(** X15.  What a successful call of [repeat_reports] changes and what it
    keeps: the other lists are as they were; with one folder [demo.txt] is as
    it was, with two folders it holds the list and its pool; and the generator
    is in a state that the length of the pool and [k] determine, whatever
    seed was in use before. *)
Theorem repeat_reports_frame `{!RandomLaws R} (w : world) (l : ref)
    (files : list string) (k : Z) (two_folders : bool) :
  heap w !! l = Some files ->
  (0 <= k <= len (pool two_folders files))%Z ->
  exists w',
    repeat_reports l k two_folders w = (inr l, w') /\
    (forall l', l' <> l -> heap w' !! l' = heap w !! l') /\
    demo_txt w' =
      (if two_folders then Some (files, pool true files) else demo_txt w) /\
    rng w' = (sample_picks (seed 764247) (length (pool two_folders files))
                (Z.to_nat k)).2.
Proof.
  intros Hl Hk. rewrite (repeat_reports_world w l files k two_folders Hl).
  cbv zeta.
  assert (Hin : ((0 <=? k)%Z && (k <=? len (pool two_folders files))%Z)%bool = true).
  { apply andb_true_iff. split; apply Z.leb_le; lia. }
  rewrite Hin. eexists. split; [reflexivity|]. cbn [heap rng demo_txt].
  split; [intros l' Hl'; by rewrite lookup_insert_ne|].
  by destruct two_folders.
Qed.
End WorldFacts.

Lemma anonymize_reports_distinct_witness :
  exists r w' out,
    anonymize_reports 0 "DS1" (world0 [["b"; "a"; "b"]]) = (inr r, w') /\
    heap w' !! r = Some out /\ NoDup out.
Proof.
  apply (anonymize_reports_distinct (world0 [["b"; "a"; "b"]]) 0 ["b"; "a"; "b"]).
  reflexivity.
Defined.

Lemma anonymize_reports_blind_witness :
  exists r1 w1' r2 w2' out,
    anonymize_reports 0 "DS1" (world0 [["a"; "b"]]) = (inr r1, w1') /\
    anonymize_reports 1 "DS1"
      (@World Lcg.random {[ 1 := ["y"; "x"] ]} 5%N None) = (inr r2, w2') /\
    heap w1' !! r1 = Some out /\ heap w2' !! r2 = Some out /\
    rng w1' = rng (world0 [["a"; "b"]]) /\
    demo_txt w1' = demo_txt (world0 [["a"; "b"]]).
Proof.
  apply (anonymize_reports_blind (world0 [["a"; "b"]])
           (@World Lcg.random {[ 1 := ["y"; "x"] ]} 5%N None)
           0 1 ["a"; "b"] ["y"; "x"] "DS1"); reflexivity.
Defined.

Lemma repeat_reports_out_of_range_witness :
  exists w',
    repeat_reports 0 4 true (world0 [reports_two_folders])
      = (inl ValueError, w') /\
    heap w' = heap (world0 [reports_two_folders]) /\
    rng w' = seed 764247 /\
    demo_txt w' = Some (reports_two_folders, pool true reports_two_folders).
Proof.
  apply (repeat_reports_out_of_range (world0 [reports_two_folders]) 0
           reports_two_folders 4 true).
  - reflexivity.
  - right. vm_compute. reflexivity.
Defined.

Lemma repeat_reports_frame_witness :
  exists w',
    repeat_reports 0 2 false (world0 [["a"; "b"; "c"]; ["x"]]) = (inr 0, w') /\
    (forall l', l' <> 0 ->
       heap w' !! l' = heap (world0 [["a"; "b"; "c"]; ["x"]]) !! l') /\
    demo_txt w' = demo_txt (world0 [["a"; "b"; "c"]; ["x"]]) /\
    rng w' = (sample_picks (seed 764247) (length (pool false ["a"; "b"; "c"]))
                (Z.to_nat 2)).2.
Proof.
  apply (repeat_reports_frame (world0 [["a"; "b"; "c"]; ["x"]]) 0
           ["a"; "b"; "c"] 2 false).
  - reflexivity.
  - vm_compute. split; discriminate.
Defined.

Section PipelineFacts.
Context {R : Random} `{!RandomLaws R}.

(** X16.  Which positions [repeat_reports] repeats is fixed by the length of
    the list and by [k] alone (the seed is a constant of the module): for a
    length and a number of repeats there are [k] different positions that the
    single-folder call repeats in every list of that length, in every world. *)
Theorem repeat_reports_positions (n : nat) (k : Z) :
  (0 <= k <= Z.of_nat n)%Z ->
  exists positions,
    length positions = Z.to_nat k /\
    Forall (fun i => i < n) positions /\ NoDup positions /\
    forall (w : world) (l : ref) (files : list string),
      heap w !! l = Some files -> length files = n ->
      exists w',
        repeat_reports l k false w = (inr l, w') /\
        heap w' !! l = Some (files ++ ((fun i => files !!! i) <$> positions)).
Proof.
  intros Hk. exists (sample_picks (seed 764247) n (Z.to_nat k)).1.
  split; [apply sample_picks_length; lia|].
  split; [apply sample_picks_below; lia|].
  split; [apply sample_picks_distinct; lia|].
  intros w l files Hl <-.
  destruct (repeat_reports_run w l files k false Hl) as (w' & Hr & Hh).
  { unfold len, pool. lia. }
  exists w'. split; [exact Hr|]. rewrite Hh. simpl. by rewrite lookup_insert_eq.
Qed.

Lemma pick_NoDup (l : list string) (picks : list nat) :
  NoDup l -> NoDup picks -> Forall (fun i => i < length l) picks ->
  NoDup ((fun i => l !!! i) <$> picks).
Proof.
  intros Hl Hp Hlt. apply NoDup_fmap_2_strong; [|done].
  intros i j Hi Hj Hij. rewrite Forall_forall in Hlt.
  destruct (lookup_lt_is_Some_2 l i (Hlt i Hi)) as [x Hx].
  destruct (lookup_lt_is_Some_2 l j (Hlt j Hj)) as [y Hy].
  rewrite (list_lookup_total_correct l i x Hx) in Hij.
  rewrite (list_lookup_total_correct l j y Hy) in Hij.
  apply (NoDup_lookup l i j x); [done | done | by rewrite Hij].
Qed.

(** X17.  The repeats are drawn without replacement: when the reports of the
    list are pairwise different, so are the reports that [repeat_reports]
    draws from the pool, and there are [k] of them. *)
Theorem repeat_reports_distinct (w : world) (l : ref) (files : list string)
    (k : Z) (two_folders : bool) :
  heap w !! l = Some files -> NoDup files ->
  (0 <= k <= len (pool two_folders files))%Z ->
  exists w' chosen,
    repeat_reports l k two_folders w = (inr l, w') /\
    heap w' !! l =
      Some (files ++
            (if two_folders
             then chosen ++ (replace "condition1" "condition2" <$> chosen)
             else chosen)) /\
    length chosen = Z.to_nat k /\ NoDup chosen /\
    Forall (fun x => x ∈ pool two_folders files) chosen.
Proof.
  intros Hl Hnd Hk.
  destruct (repeat_reports_run w l files k two_folders Hl Hk) as (w' & Hr & Hh).
  assert (Hkn : Z.to_nat k <= length (pool two_folders files))
    by (unfold len in Hk; lia).
  destruct (chosen_spec (seed 764247) (pool two_folders files) (Z.to_nat k) Hkn)
    as [Hlen Hin].
  simpl in Hh, Hlen, Hin. eexists w', _. split; [exact Hr|].
  rewrite Hh, lookup_insert_eq. split; [reflexivity|].
  split; [exact Hlen|]. split; [|exact Hin].
  apply pick_NoDup.
  - destruct two_folders; simpl; [by apply NoDup_filter | done].
  - by apply sample_picks_distinct.
  - by apply sample_picks_below.
Qed.
End PipelineFacts.

Lemma repeat_reports_positions_witness :
  exists positions,
    length positions = Z.to_nat 2 /\
    Forall (fun i => i < 5) positions /\ NoDup positions /\
    forall (w : @world Lcg.random) (l : ref) (files : list string),
      heap w !! l = Some files -> length files = 5 ->
      exists w',
        repeat_reports l 2 false w = (inr l, w') /\
        heap w' !! l = Some (files ++ ((fun i => files !!! i) <$> positions)).
Proof.
  apply (repeat_reports_positions 5 2). lia.
Defined.

Lemma repeat_reports_distinct_witness :
  exists w' chosen,
    repeat_reports 0 2 true (world0 [reports_two_folders]) = (inr 0, w') /\
    heap w' !! 0 =
      Some (reports_two_folders ++
            chosen ++ (replace "condition1" "condition2" <$> chosen)) /\
    length chosen = Z.to_nat 2 /\ NoDup chosen /\
    Forall (fun x => x ∈ pool true reports_two_folders) chosen.
Proof.
  apply (repeat_reports_distinct (world0 [reports_two_folders]) 0
           reports_two_folders 2 true).
  - reflexivity.
  - unfold reports_two_folders. apply NoDup_ListNoDup.
    repeat (constructor; [simpl; intuition discriminate|]). constructor.
  - vm_compute. split; discriminate.
Defined.

Section ComposeFacts.
Context {R : Random} `{!RandomLaws R}.

(** X18.  Repeating, then shuffling.  [repeat_reports] hands back the list it
    was given, grown in place, and [shuffle_reports] copies it: after the two
    calls the caller's list holds its old elements followed by the [k]
    repeats, and the shuffled list is a rearrangement of that grown list. *)
Theorem repeat_then_shuffle (w : world) (l : ref) (files : list string)
    (k s : Z) :
  heap w !! l = Some files -> (0 <= k <= len files)%Z ->
  exists r w' grown out,
    (r0 <- repeat_reports l k false ;; shuffle_reports r0 s) w = (inr r, w') /\
    r <> l /\
    heap w' !! l = Some grown /\ take (length files) grown = files /\
    len grown = (len files + k)%Z /\
    heap w' !! r = Some out /\ out ≡ₚ grown.
Proof.
  intros Hl Hk.
  destruct (repeat_reports_run w l files k false Hl Hk) as (w1 & Hr1 & Hh1).
  destruct (chosen_spec (seed 764247) files (Z.to_nat k)) as [Hlen _].
  { unfold len in Hk. lia. }
  simpl in Hh1, Hlen.
  set (grown := files ++ ((fun i => files !!! i) <$>
                 (sample_picks (seed 764247) (length files) (Z.to_nat k)).1)) in *.
  assert (Hl1 : heap w1 !! l = Some grown) by (by rewrite Hh1, lookup_insert_eq).
  destruct (shuffle_reports_run w1 l grown s Hl1) as (w2 & Hr2 & _ & Hh2 & _).
  pose proof (fresh_ne w1 l grown Hl1) as Hne.
  exists (fresh (dom (heap w1))), w2, grown, (shuffled s grown).
  split; [unfold bind; by rewrite Hr1|]. split; [done|].
  rewrite Hh2. split; [by rewrite lookup_insert_ne|].
  split; [apply take_app_length|].
  split; [unfold len, grown; rewrite length_app, Hlen; lia|].
  split; [by rewrite lookup_insert_eq|].
  unfold shuffled. rewrite (shuffle_order_perm (seed s) (length grown)).
  by rewrite pick_all.
Qed.

(** X19.  Two calls of [repeat_reports] on the same list add up, since the
    list is changed in place: after them the list holds its old elements
    followed by [2k] repeats, each of which is one of the old elements (the
    second call draws among the old elements and the first repeats). *)
Theorem repeat_reports_twice (w : world) (l : ref) (files : list string)
    (k : Z) :
  heap w !! l = Some files -> (0 <= k <= len files)%Z ->
  exists w' out,
    (r0 <- repeat_reports l k false ;; repeat_reports r0 k false) w
      = (inr l, w') /\
    heap w' !! l = Some out /\
    take (length files) out = files /\
    len out = (len files + 2 * k)%Z /\
    Forall (fun x => x ∈ files) out.
Proof.
  intros Hl Hk.
  destruct (repeat_reports_run w l files k false Hl Hk) as (w1 & Hr1 & Hh1).
  destruct (chosen_spec (seed 764247) files (Z.to_nat k)) as [Hlen1 Hin1].
  { unfold len in Hk. lia. }
  simpl in Hh1, Hlen1, Hin1.
  set (grown := files ++ ((fun i => files !!! i) <$>
                 (sample_picks (seed 764247) (length files) (Z.to_nat k)).1)) in *.
  assert (Hl1 : heap w1 !! l = Some grown) by (by rewrite Hh1, lookup_insert_eq).
  assert (Hgl : length grown = length files + Z.to_nat k)
    by (unfold grown; by rewrite length_app, Hlen1).
  assert (Hk1 : (0 <= k <= len (pool false grown))%Z)
    by (unfold len, pool in *; lia).
  destruct (repeat_reports_run w1 l grown k false Hl1 Hk1) as (w2 & Hr2 & Hh2).
  destruct (chosen_spec (seed 764247) grown (Z.to_nat k)) as [Hlen2 Hin2].
  { lia. }
  simpl in Hh2, Hlen2, Hin2.
  assert (Hgrown : Forall (fun x => x ∈ files) grown).
  { unfold grown. apply Forall_app. split; [|exact Hin1].
    by apply Forall_forall. }
  eexists w2, _. split; [unfold bind; by rewrite Hr1|].
  rewrite Hh2, lookup_insert_eq. split; [reflexivity|].
  split; [|split].
  - unfold grown. rewrite <- app_assoc. apply take_app_length.
  - unfold len. rewrite length_app, Hlen2, Hgl. lia.
  - apply Forall_app. split; [exact Hgrown|].
    eapply Forall_impl; [exact Hin2|]. intros x Hx.
    rewrite Forall_forall in Hgrown. by apply Hgrown.
Qed.

(** X20.  What [shuffle_reports] does to the world besides building the
    shuffled list: [demo.txt] is as it was, and the process-wide generator is
    left in the state that the seed and the length of the list determine,
    whatever state it was in before. *)
Theorem shuffle_reports_frame (w : world) (l : ref) (files : list string)
    (s : Z) :
  heap w !! l = Some files ->
  exists r w',
    shuffle_reports l s w = (inr r, w') /\
    demo_txt w' = demo_txt w /\
    rng w' = (shuffle_order (seed s) (length files)).2.
Proof.
  intros Hl.
  unfold shuffle_reports, deepcopy, bind, random_seed, elements, new_list,
    random_shuffle, ret. simpl.
  rewrite (lookup_total_correct _ _ _ Hl), lookup_total_insert_eq.
  destruct (shuffle_order (seed s) (length files)) as [order g].
  by eexists _, _.
Qed.

(** X21.  A list of no report or of one report is shuffled into a copy of
    itself. *)
Theorem shuffle_reports_short (w : world) (l : ref) (files : list string)
    (s : Z) :
  heap w !! l = Some files -> length files <= 1 ->
  exists r w',
    shuffle_reports l s w = (inr r, w') /\ r <> l /\
    heap w' !! r = Some files.
Proof.
  intros Hl Hshort.
  destruct (shuffle_reports_run w l files s Hl) as (w' & Hr & _ & Hh & _).
  pose proof (fresh_ne w l files Hl) as Hne.
  exists (fresh (dom (heap w))), w'. split; [exact Hr|]. split; [done|].
  rewrite Hh, lookup_insert_eq. f_equal.
  assert (Hp : shuffled s files ≡ₚ files).
  { unfold shuffled. rewrite (shuffle_order_perm (seed s) (length files)).
    by rewrite pick_all. }
  destruct files as [|x [|y files]]; simpl in Hshort; [| |lia].
  - by apply Permutation_nil_r.
  - by apply Permutation_singleton_r.
Qed.
End ComposeFacts.

Lemma repeat_then_shuffle_witness :
  exists r w' grown out,
    (r0 <- repeat_reports 0 2 false ;; shuffle_reports r0 11)
      (world0 [["a"; "b"; "c"; "d"]]) = (inr r, w') /\
    r <> 0 /\
    heap w' !! 0 = Some grown /\
    take (length ["a"; "b"; "c"; "d"]) grown = ["a"; "b"; "c"; "d"] /\
    len grown = (len ["a"; "b"; "c"; "d"] + 2)%Z /\
    heap w' !! r = Some out /\ out ≡ₚ grown.
Proof.
  apply (repeat_then_shuffle (world0 [["a"; "b"; "c"; "d"]]) 0
           ["a"; "b"; "c"; "d"] 2 11).
  - reflexivity.
  - vm_compute. split; discriminate.
Defined.

Lemma repeat_reports_twice_witness :
  exists w' out,
    (r0 <- repeat_reports 0 2 false ;; repeat_reports r0 2 false)
      (world0 [["a"; "b"; "c"; "d"]]) = (inr 0, w') /\
    heap w' !! 0 = Some out /\
    take (length ["a"; "b"; "c"; "d"]) out = ["a"; "b"; "c"; "d"] /\
    len out = (len ["a"; "b"; "c"; "d"] + 2 * 2)%Z /\
    Forall (fun x => x ∈ ["a"; "b"; "c"; "d"]) out.
Proof.
  apply (repeat_reports_twice (world0 [["a"; "b"; "c"; "d"]]) 0
           ["a"; "b"; "c"; "d"] 2).
  - reflexivity.
  - vm_compute. split; discriminate.
Defined.

Lemma shuffle_reports_frame_witness :
  exists r w',
    shuffle_reports 0 3 (world0 [["a"; "b"; "c"]]) = (inr r, w') /\
    demo_txt w' = demo_txt (world0 [["a"; "b"; "c"]]) /\
    rng w' = (shuffle_order (seed 3) (length ["a"; "b"; "c"])).2.
Proof.
  apply (shuffle_reports_frame (world0 [["a"; "b"; "c"]]) 0 ["a"; "b"; "c"] 3).
  reflexivity.
Defined.

Lemma shuffle_reports_short_witness :
  exists r w',
    shuffle_reports 0 3 (world0 [["a"]]) = (inr r, w') /\ r <> 0 /\
    heap w' !! r = Some ["a"].
Proof.
  apply (shuffle_reports_short (world0 [["a"]]) 0 ["a"] 3).
  - reflexivity.
  - simpl. lia.
Defined.

(** ** The single-folder listing *)

Lemma str_in_cons sub a s :
  str_in sub (String a s) = String.prefix sub (String a s) || str_in sub s.
Proof. simpl. by destruct (String.prefix sub (String a s)). Qed.

Lemma basename_no_slash (p : string) : str_in "/" (basename p) = false.
Proof.
  induction p as [|a r IH]; [reflexivity|].
  cbn [basename]. destruct (str_in "/" r) eqn:Hr; [exact IH|].
  destruct (Ascii.eqb_spec a "/") as [->|Hne]; [exact Hr|].
  rewrite str_in_cons, Hr, orb_false_r. by apply prefix_head_ne.
Qed.

(** X22.  The single-folder listing holds bare names: when
    [list_individual_reports] returns a listing of one folder tree, it is a
    rearrangement of the base names of the paths that the recursive glob
    found, and no name in it has a slash, in whatever sub-folder the report
    was found. *)
Theorem list_individual_reports_single_folder (glob : string -> list string)
    (path_reports : string) (out : list string) :
  list_individual_reports glob path_reports false = inr out ->
  out ≡ₚ map basename (glob (path_reports +:+ "/**/sub-*.html")) /\
  Forall (fun f => str_in "/" f = false) out.
Proof.
  unfold list_individual_reports. intros Hs.
  pose proof (sort_reports_valid _ _ Hs) as Hv.
  rewrite (sort_reports_decorate _ Hv) in Hs. injection Hs as <-.
  assert (Hp : map snd (stable_sort key_lt
                 (map decorate (map basename (glob (path_reports +:+ "/**/sub-*.html")))))
               ≡ₚ map basename (glob (path_reports +:+ "/**/sub-*.html"))).
  { rewrite stable_sort_perm. by rewrite map_snd_decorate. }
  split; [exact Hp|]. rewrite Hp. apply Forall_fmap, Forall_true.
  intros p. apply basename_no_slash.
Qed.

Lemma list_individual_reports_single_folder_witness :
  ["sub-01_T1w.html"; "sub-02_T1w.html"]
    ≡ₚ map basename
         ((fun _ => ["/data/b/sub-02_T1w.html"; "/data/a/sub-01_T1w.html"])
            ("/data" +:+ "/**/sub-*.html")) /\
  Forall (fun f => str_in "/" f = false) ["sub-01_T1w.html"; "sub-02_T1w.html"].
Proof.
  apply (list_individual_reports_single_folder
           (fun _ => ["/data/b/sub-02_T1w.html"; "/data/a/sub-01_T1w.html"])
           "/data").
  vm_compute. reflexivity.
Defined.
